(** * Room: membership, lifecycle and tick loop of one game room

    A shallow embedding of [src/game/room.cpp].  Every member function of
    [game::Room] becomes a function on an explicit room record; the calls the
    room makes to [broadcast] are collected in a trace, and the reads of
    [Clock::now()] become an argument of the operation that performs them.

    What [game/room.h], [game/player.h] and the physics header declare
    (the methods of [Player], the spawn table, the constants) is taken as an
    interface, [Externals], which the development is parametric in. *)

From Stdlib Require Import ZArith String List Lia.
From stdpp Require Import base strings gmap fin_maps list sorting.

Local Open Scope Z_scope.

(** ** Player records *)

Module Player.

(** The fields of [game::Player] that [room.cpp] reads or writes.  The
    position is a C++ floating point value; the room only ever copies it,
    so its type is left abstract. *)
Record t (float : Type) : Type := mk {
  id : string;
  name : string;
  display_name : string;
  ready : bool;
  x : float;
  y : float;
  pending_actions : list string;
  last_input_tick : Z
}.

Arguments mk {float}.
Arguments id {float}.
Arguments name {float}.
Arguments display_name {float}.
Arguments ready {float}.
Arguments x {float}.
Arguments y {float}.
Arguments pending_actions {float}.
Arguments last_input_tick {float}.

Section Setters.
Context {float : Type}.

Definition set_name (s : string) (p : t float) : t float :=
  mk p.(id) s p.(display_name) p.(ready) p.(x) p.(y)
     p.(pending_actions) p.(last_input_tick).

Definition set_display_name (s : string) (p : t float) : t float :=
  mk p.(id) p.(name) s p.(ready) p.(x) p.(y)
     p.(pending_actions) p.(last_input_tick).

Definition set_ready (b : bool) (p : t float) : t float :=
  mk p.(id) p.(name) p.(display_name) b p.(x) p.(y)
     p.(pending_actions) p.(last_input_tick).

Definition set_pending_actions (l : list string) (p : t float) : t float :=
  mk p.(id) p.(name) p.(display_name) p.(ready) p.(x) p.(y)
     l p.(last_input_tick).

Definition set_last_input_tick (n : Z) (p : t float) : t float :=
  mk p.(id) p.(name) p.(display_name) p.(ready) p.(x) p.(y)
     p.(pending_actions) n.
End Setters.

End Player.

(** ** JSON payloads

    The values handed to [broadcast].  An object keeps its fields in the
    order the source writes them. *)

#[local] Set Warnings "-register-all".

Inductive json (float : Type) : Type :=
| JString (s : string)
| JBool (b : bool)
| JInt (n : Z)
| JFloat (f : float)
| JArray (l : list (json float))
| JObject (fields : list (string * json float)).

Arguments JString {float}.
Arguments JBool {float}.
Arguments JInt {float}.
Arguments JFloat {float}.
Arguments JArray {float}.
Arguments JObject {float}.

(** First value stored under key [k] in an association list. *)
Fixpoint assoc {A : Type} (k : string) (l : list (string * A)) : option A :=
  match l with
  | [] => None
  | (k', v) :: l' => if String.eqb k k' then Some v else assoc k l'
  end.

(** [field k j] is the value [j] holds under key [k], for an object. *)
Definition field {float : Type} (k : string) (j : json float) : option (json float) :=
  match j with
  | JObject fs => assoc k fs
  | _ => None
  end.

(** The ["type"] tag of a payload. *)
Definition msg_type {float : Type} (j : json float) : option string :=
  match field "type" j with
  | Some (JString s) => Some s
  | _ => None
  end.

(** ** What the absent headers declare *)

Class Externals (float : Type) : Type := {
  (** [Player::spawn(x, y)] *)
  spawn : float → float → Player.t float → Player.t float;
  (** [Player::process_input(dt)] *)
  process_input : float → Player.t float → Player.t float;
  (** [Player::to_game_json()] *)
  to_game_json : Player.t float → json float;
  (** [Room::spawn_positions_], a table of four rows *)
  spawn_positions_ : Z → float * float;
  (** [physics::MAP_WIDTH], [physics::MAP_HEIGHT], [physics::GROUND_Y] *)
  MAP_WIDTH : json float;
  MAP_HEIGHT : json float;
  GROUND_Y : json float;
  (** the literal [60.0f] *)
  float_60 : float;
  (** [Room::GRACE_SECONDS] *)
  GRACE_SECONDS : Z;
  (** number of periods of [Room::Clock] in one second *)
  clock_periods_per_second : Z
}.

(** ** The room *)

Module Room.

Inductive RoomState : Type := WAITING | PLAYING | FINISHED.

Definition RoomState_eqb (a b : RoomState) : bool :=
  match a, b with
  | WAITING, WAITING | PLAYING, PLAYING | FINISHED, FINISHED => true
  | _, _ => false
  end.

(** The data members of [game::Room].  A time point of [Clock] is the number
    of clock periods since the clock's epoch; [broadcast_fn_] records whether
    the [std::function] holds a target.  The counters are integers whose
    width [room.h] declares; they are kept as mathematical integers, so the
    statements about [tick_] hold as long as the counter does not overflow. *)
Record t (float : Type) : Type := mk {
  id_ : string;
  max_players_ : Z;
  state_ : RoomState;
  players_ : gmap string (Player.t float);
  disconnected_players_ : gmap string (Player.t float);
  tick_ : Z;
  next_spawn_ : Z;
  empty_since_ : option Z;
  broadcast_fn_ : bool
}.

Arguments mk {float}.
Arguments id_ {float}.
Arguments max_players_ {float}.
Arguments state_ {float}.
Arguments players_ {float}.
Arguments disconnected_players_ {float}.
Arguments tick_ {float}.
Arguments next_spawn_ {float}.
Arguments empty_since_ {float}.
Arguments broadcast_fn_ {float}.

(** One call of [Room::broadcast]: the payload, and the ids [broadcast_fn_]
    was invoked for (none when no target is set). *)
Record bcast (float : Type) : Type := mk_bcast {
  payload : json float;
  sent_to : list string
}.

Arguments mk_bcast {float}.
Arguments payload {float}.
Arguments sent_to {float}.

(** The invocations of [broadcast_fn_] a trace stands for. *)
Definition deliveries {float : Type} (tr : list (bcast float))
  : list (string * json float) :=
  flat_map (λ b, map (λ pid, (pid, payload b)) (sent_to b)) tr.

Section Ops.
Context {float : Type} `{E : Externals float}.

Abbreviation Player := (Player.t float).
Abbreviation Room := (t float).
Abbreviation trace := (list (bcast float)).

Definition set_state (s : RoomState) (r : Room) : Room :=
  mk r.(id_) r.(max_players_) s r.(players_) r.(disconnected_players_)
     r.(tick_) r.(next_spawn_) r.(empty_since_) r.(broadcast_fn_).

Definition set_players (m : gmap string Player) (r : Room) : Room :=
  mk r.(id_) r.(max_players_) r.(state_) m r.(disconnected_players_)
     r.(tick_) r.(next_spawn_) r.(empty_since_) r.(broadcast_fn_).

Definition set_disconnected (m : gmap string Player) (r : Room) : Room :=
  mk r.(id_) r.(max_players_) r.(state_) r.(players_) m
     r.(tick_) r.(next_spawn_) r.(empty_since_) r.(broadcast_fn_).

Definition set_tick (n : Z) (r : Room) : Room :=
  mk r.(id_) r.(max_players_) r.(state_) r.(players_) r.(disconnected_players_)
     n r.(next_spawn_) r.(empty_since_) r.(broadcast_fn_).

Definition set_next_spawn (n : Z) (r : Room) : Room :=
  mk r.(id_) r.(max_players_) r.(state_) r.(players_) r.(disconnected_players_)
     r.(tick_) n r.(empty_since_) r.(broadcast_fn_).

Definition set_empty_since (o : option Z) (r : Room) : Room :=
  mk r.(id_) r.(max_players_) r.(state_) r.(players_) r.(disconnected_players_)
     r.(tick_) r.(next_spawn_) o r.(broadcast_fn_).

(** Modelled from the spec: the default member initialisers of [room.h],
    which is not among the sources.  A room is created in [WAITING] with no
    players, no grace period and no delivery target; the counters start at
    zero. *)
Definition new (id : string) (max_players : Z) : Room :=
  mk id max_players WAITING ∅ ∅ 0 0 None false.

(** *** Containers *)

(** [std::map::emplace]: an existing key keeps its value. *)
Definition emplace (k : string) (v : Player) (m : gmap string Player)
  : gmap string Player :=
  match m !! k with
  | Some _ => m
  | None => <[k := v]> m
  end.

(** [m.empty()] *)
Definition map_is_empty (m : gmap string Player) : bool :=
  Nat.eqb (size m) 0.

(** The two player maps are declared in [room.h]; they are taken to be
    [std::map<std::string, Player>], so a range-for visits the entries by
    ascending key, under the byte-wise order of [std::string]. *)
Definition id_le (a b : string * Player) : Prop := String.leb a.1 b.1 = true.

#[global] Instance id_le_dec (a b : string * Player) : Decision (id_le a b) :=
  decide (String.leb a.1 b.1 = true).

(** The entries in the order a range-for visits them. *)
Definition entries (m : gmap string Player) : list (string * Player) :=
  merge_sort id_le (map_to_list m).

(** The keys in the order a range-for visits them. *)
Definition keys (m : gmap string Player) : list string :=
  (entries m).*1.

(** *** Queries *)

Definition has_player (r : Room) (player_id : string) : bool :=
  match r.(players_) !! player_id with Some _ => true | None => false end.

Definition get_player (r : Room) (player_id : string) : option Player :=
  r.(players_) !! player_id.

Definition player_count (r : Room) : Z := Z.of_nat (size r.(players_)).

Definition is_full (r : Room) : bool :=
  r.(max_players_) <=? Z.of_nat (size r.(players_)).

Definition is_empty (r : Room) : bool := map_is_empty r.(players_).

(** [duration_cast<seconds>(now - since).count()]: the cast truncates. *)
Definition elapsed_seconds (now since : Z) : Z :=
  Z.quot (now - since) clock_periods_per_second.

Definition should_cleanup (r : Room) (now : Z) : bool :=
  if RoomState_eqb r.(state_) FINISHED && map_is_empty r.(players_) then true
  else match r.(empty_since_) with
       | Some since => GRACE_SECONDS <=? elapsed_seconds now since
       | None => false
       end.

Definition all_ready (r : Room) : bool :=
  if map_is_empty r.(players_) then false
  else if (size r.(players_) <? 2)%nat then false
  else forallb (λ kp, Player.ready kp.2) (entries r.(players_)).

(** *** Broadcasting *)

Definition set_broadcast_fn (r : Room) (fn : bool) : Room :=
  mk r.(id_) r.(max_players_) r.(state_) r.(players_) r.(disconnected_players_)
     r.(tick_) r.(next_spawn_) r.(empty_since_) fn.

Definition broadcast (r : Room) (msg : json float) : trace :=
  [mk_bcast msg (if r.(broadcast_fn_) then keys r.(players_) else [])].

(** *** Player management *)

(** The tail shared by both successful paths of [add_player]. *)
Definition insert_player (p : Player) (r : Room) : Room :=
  set_empty_since None (set_players (emplace (Player.id p) p r.(players_)) r).

Definition spawn_at (idx : Z) (p : Player) : Player :=
  spawn (spawn_positions_ idx).1 (spawn_positions_ idx).2 p.

Definition add_player (r : Room) (player : Player) : bool * Room :=
  if has_player r (Player.id player) then (false, r)
  else
    match r.(disconnected_players_) !! Player.id player with
    | Some stored =>
        let p := Player.set_display_name (Player.display_name player)
                   (Player.set_name (Player.name player) stored) in
        let r1 := set_disconnected
                    (delete (Player.id player) r.(disconnected_players_)) r in
        (true, insert_player p r1)
    | None =>
        if is_full r then (false, r)
        else if RoomState_eqb r.(state_) FINISHED then (false, r)
        else if RoomState_eqb r.(state_) PLAYING then
          let idx := Z.rem r.(next_spawn_) 4 in
          let p := spawn_at idx player in
          (true, insert_player p (set_next_spawn (r.(next_spawn_) + 1) r))
        else (true, insert_player player r)
    end.

Definition remove_player (r : Room) (player_id : string) (now : Z) : Room :=
  match r.(players_) !! player_id with
  | None => r
  | Some p =>
      let r1 := if RoomState_eqb r.(state_) PLAYING
                then set_disconnected
                       (<[player_id := p]> r.(disconnected_players_)) r
                else r in
      let r2 := set_players (delete player_id r1.(players_)) r1 in
      if map_is_empty r2.(players_) then
        if RoomState_eqb r2.(state_) PLAYING
           && negb (map_is_empty r2.(disconnected_players_))
        then set_empty_since (Some now) r2
        else if RoomState_eqb r2.(state_) WAITING
        then set_state FINISHED r2
        else r2
      else r2
  end.

(** *** Gameplay *)

(** The first loop of [start_game]: every player is spawned at the row the
    cursor selects, and the cursor advances. *)
Fixpoint spawn_all (l : list (string * Player)) (next : Z)
  : list (string * Player) * Z :=
  match l with
  | [] => ([], next)
  | (pid, p) :: l' =>
      let idx := Z.rem next 4 in
      let '(l'', next') := spawn_all l' (next + 1) in
      ((pid, spawn_at idx p) :: l'', next')
  end.

Definition spawn_point (kp : string * Player) : json float :=
  JObject [("player_id", JString kp.1);
           ("x", JFloat (Player.x kp.2));
           ("y", JFloat (Player.y kp.2))].

Definition game_start_msg (r : Room) : json float :=
  JObject [("type", JString "game_start");
           ("round", JInt 1);
           ("map_data", JObject [("width", MAP_WIDTH);
                                 ("height", MAP_HEIGHT);
                                 ("ground_y", GROUND_Y)]);
           ("spawn_points", JArray (map spawn_point (entries r.(players_))))].

Definition start_game (r : Room) : Room * trace :=
  if negb (RoomState_eqb r.(state_) WAITING) then (r, [])
  else
    let r1 := set_next_spawn 0 (set_tick 0 (set_state PLAYING r)) in
    let '(l, next) := spawn_all (entries r1.(players_)) r1.(next_spawn_) in
    let r2 := set_next_spawn next (set_players (list_to_map l) r1) in
    (r2, broadcast r2 (game_start_msg r2)).

Definition game_state (r : Room) : json float :=
  JObject [("type", JString "game_state");
           ("tick", JInt r.(tick_));
           ("time_left", JFloat float_60);
           ("round", JInt 1);
           ("players", JArray (map (λ kp, to_game_json kp.2)
                                   (entries r.(players_))));
           ("enemies", JArray []);
           ("items", JArray [])].

Definition update (r : Room) (dt : float) (now : Z) : Room * trace :=
  if negb (RoomState_eqb r.(state_) PLAYING) then (r, [])
  else
    let expired := match r.(empty_since_) with
                   | Some since => GRACE_SECONDS <=? elapsed_seconds now since
                   | None => false
                   end in
    if expired then (set_disconnected ∅ (set_state FINISHED r), [])
    else if map_is_empty r.(players_) then (r, [])
    else
      let r1 := set_tick (r.(tick_) + 1) r in
      let r2 := set_players (process_input dt <$> r1.(players_)) r1 in
      (r2, broadcast r2 (game_state r2)).

Definition queue_input (r : Room) (player_id : string) (tick : Z)
    (actions : list string) : Room :=
  match r.(players_) !! player_id with
  | None => r
  | Some p =>
      set_players
        (<[player_id := Player.set_last_input_tick tick
                          (Player.set_pending_actions actions p)]> r.(players_)) r
  end.

(** *** Lobby *)

Definition ready_state_msg (player_id : string) (ready : bool) : json float :=
  JObject [("type", JString "player_ready_state");
           ("player_id", JString player_id);
           ("ready", JBool ready)].

Definition set_player_ready (r : Room) (player_id : string) (ready : bool)
  : Room * trace :=
  match r.(players_) !! player_id with
  | None => (r, [])
  | Some p =>
      let r1 := set_players (<[player_id := Player.set_ready ready p]> r.(players_)) r in
      let tr1 := broadcast r1 (ready_state_msg player_id ready) in
      if all_ready r1 && RoomState_eqb r1.(state_) WAITING then
        let '(r2, tr2) := start_game r1 in (r2, tr1 ++ tr2)
      else (r1, tr1)
  end.

(** *** Chat *)

Definition chat_msg (sender_id player_name message : string) : json float :=
  JObject [("type", JString "chat_message");
           ("player_id", JString sender_id);
           ("player_name", JString player_name);
           ("message", JString message)].

Definition handle_chat (r : Room) (sender_id message : string) : trace :=
  match get_player r sender_id with
  | None => []
  | Some player => broadcast r (chat_msg sender_id (Player.name player) message)
  end.

(** ** Runs of a room

    The commands a dispatcher can issue, and the rooms it can reach with
    them from a freshly constructed one.  The queries and the fan-out
    helpers leave the room as it is and are not among them. *)

Inductive op : Type :=
| AddPlayer (player : Player)
| RemovePlayer (player_id : string) (now : Z)
| SetPlayerReady (player_id : string) (ready : bool)
| HandleChat (sender_id message : string)
| StartGame
| Update (dt : float) (now : Z)
| QueueInput (player_id : string) (tick : Z) (actions : list string)
| SetBroadcastFn (fn : bool).

Definition step (r : Room) (o : op) : Room * trace :=
  match o with
  | AddPlayer player => ((add_player r player).2, [])
  | RemovePlayer player_id now => (remove_player r player_id now, [])
  | SetPlayerReady player_id ready => set_player_ready r player_id ready
  | HandleChat sender_id message => (r, handle_chat r sender_id message)
  | StartGame => start_game r
  | Update dt now => update r dt now
  | QueueInput player_id tick actions => (queue_input r player_id tick actions, [])
  | SetBroadcastFn fn => (set_broadcast_fn r fn, [])
  end.

Fixpoint run (r : Room) (os : list op) : Room * trace :=
  match os with
  | [] => (r, [])
  | o :: os' =>
      let '(r1, tr1) := step r o in
      let '(r2, tr2) := run r1 os' in
      (r2, tr1 ++ tr2)
  end.

Inductive reachable : Room → Prop :=
| reachable_new id max_players : reachable (new id max_players)
| reachable_step r o : reachable r → reachable (step r o).1.

(** *** Predicates used in the statements *)

(** The ready quorum: at least two connected players, all of them ready. *)
Definition quorum (r : Room) : Prop :=
  (2 ≤ size r.(players_))%nat ∧
  ∀ pid p, r.(players_) !! pid = Some p → Player.ready p = true.

Definition is_game_start (b : bcast float) : bool :=
  match msg_type (payload b) with
  | Some s => String.eqb s "game_start"
  | None => false
  end.

Definition count_game_start (tr : trace) : nat :=
  length (List.filter is_game_start tr).

(** An [add_player] that takes the reconnect branch. *)
Definition is_reconnect (r : Room) (o : op) : Prop :=
  match o with
  | AddPlayer player =>
      r.(players_) !! Player.id player = None ∧
      is_Some (r.(disconnected_players_) !! Player.id player)
  | _ => False
  end.

(** A reconnect into a room that is already full. *)
Definition is_reconnect_when_full (r : Room) (o : op) : Prop :=
  is_reconnect r o ∧ max_players_ r ≤ player_count r.

(** Rooms of non-negative capacity reached without a reconnect into a full
    room; fresh joins, and reconnects while a slot is free, are allowed. *)
Inductive reachable_within : Room → Prop :=
| reachable_within_new id max_players :
    0 ≤ max_players → reachable_within (new id max_players)
| reachable_within_step r o :
    reachable_within r → ¬ is_reconnect_when_full r o →
    reachable_within (step r o).1.

(** What every reachable room satisfies about its lifecycle fields. *)
Record lifecycle_inv (r : Room) : Prop := {
  inv_waiting :
    r.(state_) = WAITING →
    r.(disconnected_players_) = ∅ ∧ r.(tick_) = 0 ∧ r.(empty_since_) = None;
  inv_finished :
    r.(state_) = FINISHED →
    r.(disconnected_players_) = ∅ ∧ r.(players_) = ∅;
  inv_empty_since :
    is_Some r.(empty_since_) → r.(players_) = ∅ ∧ r.(state_) ≠ WAITING;
  inv_grace :
    r.(state_) = PLAYING → r.(players_) = ∅ →
    r.(disconnected_players_) ≠ ∅ → is_Some r.(empty_since_);
  inv_grace_disc :
    r.(state_) = PLAYING → is_Some r.(empty_since_) →
    r.(disconnected_players_) ≠ ∅
}.

(** Every entry of both maps is stored under its own id. *)
Definition keyed_by_id (m : gmap string Player) : Prop :=
  ∀ pid p, m !! pid = Some p → Player.id p = pid.

Definition keys_inv (r : Room) : Prop :=
  keyed_by_id r.(players_) ∧ keyed_by_id r.(disconnected_players_).

(** *** The other fan-out shapes *)

Definition broadcast_except (r : Room) (exclude_id : string) (msg : json float)
  : trace :=
  [mk_bcast msg
     (if r.(broadcast_fn_)
      then List.filter (λ pid, negb (String.eqb pid exclude_id)) (keys r.(players_))
      else [])].

Definition send_to (r : Room) (player_id : string) (msg : json float) : trace :=
  [mk_bcast msg (if r.(broadcast_fn_) then [player_id] else [])].

(** *** Further predicates *)

(** The place of a state in the life of a room. *)
Definition state_rank (s : RoomState) : nat :=
  match s with WAITING => 0 | PLAYING => 1 | FINISHED => 2 end.

(** The two maps share no id. *)
Definition disjoint_maps (r : Room) : Prop :=
  ∀ pid, is_Some (r.(players_) !! pid) →
         r.(disconnected_players_) !! pid = None.

(** How many invocations of [broadcast_fn_] in a trace are for [pid]. *)
Definition times_delivered (pid : string) (tr : trace) : nat :=
  length (List.filter (λ d : string * json float, String.eqb d.1 pid)
                      (deliveries tr)).

End Ops.

(** ** A concrete instance

    Positions are integers here, [spawn] writes the position and
    [process_input] leaves the record alone; used to run the operations on
    explicit rooms. *)

Module Demo.

Definition spawn_xy (sx sy : Z) (p : Player.t Z) : Player.t Z :=
  Player.mk p.(Player.id) p.(Player.name) p.(Player.display_name)
            p.(Player.ready) sx sy p.(Player.pending_actions)
            p.(Player.last_input_tick).

Definition spawn_positions (idx : Z) : Z * Z :=
  if idx =? 0 then (100, 500)
  else if idx =? 1 then (300, 500)
  else if idx =? 2 then (500, 500)
  else (700, 500).

#[export] Instance externals : Externals Z := {|
  spawn := spawn_xy;
  process_input := λ _ p, p;
  to_game_json := λ p, JObject [("id", JString p.(Player.id));
                                ("x", JFloat p.(Player.x));
                                ("y", JFloat p.(Player.y))];
  spawn_positions_ := spawn_positions;
  MAP_WIDTH := JInt 800;
  MAP_HEIGHT := JInt 600;
  GROUND_Y := JInt 500;
  float_60 := 60;
  GRACE_SECONDS := 30;
  clock_periods_per_second := 1000
|}.

Definition player (id name display_name : string) : Player.t Z :=
  Player.mk id name display_name false 0 0 [] 0.

Definition alice : Player.t Z := player "a" "alice" "Alice".
Definition bob : Player.t Z := player "b" "bob" "Bob".
Definition carol : Player.t Z := player "c" "carol" "Carol".

(** Two players join and ready up: the match starts. *)
Definition started : list (op (float := Z)) :=
  [AddPlayer alice; AddPlayer bob;
   SetPlayerReady "a" true; SetPlayerReady "b" true].

(** Both then drop, and the grace period runs out. *)
Definition expired : list (op (float := Z)) :=
  started ++ [RemovePlayer "a" 0; RemovePlayer "b" 0; Update 0 30000].

(** One drops, a newcomer takes the free slot, the first comes back. *)
Definition overfull : list (op (float := Z)) :=
  started ++ [RemovePlayer "a" 0; AddPlayer carol; AddPlayer alice].

Definition lobby : t Z := new "r1" 2.

(** Alice alone has joined. *)
Definition alice_alone : t Z := (run lobby [AddPlayer alice]).1.

(** Both have joined, only Alice is ready. *)
Definition bob_pending : t Z :=
  (run lobby [AddPlayer alice; AddPlayer bob; SetPlayerReady "a" true]).1.

Definition playing : t Z := (run lobby started).1.

(** Alice has dropped out of the running match. *)
Definition alice_away : t Z := (run lobby (started ++ [RemovePlayer "a" 0])).1.

(** Both have dropped: the grace period runs since time 0. *)
Definition in_grace : t Z :=
  (run lobby (started ++ [RemovePlayer "a" 0; RemovePlayer "b" 0])).1.

Definition after_expiry : t Z := (run lobby expired).1.

Definition over_capacity : t Z := (run lobby overfull).1.

(** Alice as she comes back, under a new name. *)
Definition alice_again : Player.t Z := player "a" "alice2" "Alice II".

(** Alice has dropped out and come back while her slot was still free. *)
Definition alice_back : t Z :=
  (run lobby (started ++ [RemovePlayer "a" 0; AddPlayer alice_again])).1.

(** Alice as the room kept her. *)
Definition alice_stored : Player.t Z :=
  Player.mk "a" "alice" "Alice" true 100 500 [] 0.



(** Bob as the running match holds him. *)
Definition bob_started : Player.t Z :=
  Player.mk "b" "bob" "Bob" true 300 500 [] 0.

End Demo.

(** ** Basic facts *)

Section Facts.
Context {float : Type} `{E : Externals float}.

Abbreviation Player := (Player.t float).
Abbreviation Room := (t float).

Lemma RoomState_eqb_eq (a b : RoomState) : RoomState_eqb a b = true ↔ a = b.
Proof. destruct a, b; simpl; split; intros; congruence. Qed.

Lemma RoomState_eqb_neq (a b : RoomState) : RoomState_eqb a b = false ↔ a ≠ b.
Proof. destruct a, b; simpl; split; intros; congruence. Qed.

Lemma map_is_empty_true (m : gmap string Player) : map_is_empty m = true ↔ m = ∅.
Proof.
  unfold map_is_empty. rewrite Nat.eqb_eq. apply map_size_empty_iff.
Qed.

Lemma map_is_empty_false (m : gmap string Player) : map_is_empty m = false ↔ m ≠ ∅.
Proof.
  unfold map_is_empty. rewrite Nat.eqb_neq. apply map_size_non_empty_iff.
Qed.

Lemma lookup_non_empty (m : gmap string Player) k p : m !! k = Some p → m ≠ ∅.
Proof. intros H ->. by rewrite lookup_empty in H. Qed.

Lemma emplace_non_empty k v (m : gmap string Player) : emplace k v m ≠ ∅.
Proof.
  unfold emplace. destruct (m !! k) eqn:Hk.
  - by eapply lookup_non_empty.
  - apply insert_non_empty.
Qed.

Lemma emplace_size k v (m : gmap string Player) :
  (size (emplace k v m) ≤ S (size m))%nat.
Proof.
  unfold emplace. destruct (m !! k) eqn:Hk; [lia|].
  rewrite map_size_insert_None by done. lia.
Qed.

(** [std::string]'s order is a total order. *)
Lemma ascii_compare_trans_le a b c :
  Ascii.compare a b ≠ Gt → Ascii.compare b c ≠ Gt → Ascii.compare a c ≠ Gt.
Proof.
  unfold Ascii.compare. rewrite !N.compare_gt_iff. lia.
Qed.

Lemma ascii_compare_lt_trans a b c :
  Ascii.compare a b = Lt → Ascii.compare b c ≠ Gt → Ascii.compare a c = Lt.
Proof.
  unfold Ascii.compare. rewrite !N.compare_lt_iff, N.compare_gt_iff. lia.
Qed.

Lemma ascii_compare_le_lt_trans a b c :
  Ascii.compare a b ≠ Gt → Ascii.compare b c = Lt → Ascii.compare a c = Lt.
Proof.
  unfold Ascii.compare. rewrite !N.compare_lt_iff, N.compare_gt_iff. lia.
Qed.

Lemma string_leb_trans (s1 s2 s3 : string) :
  String.leb s1 s2 = true → String.leb s2 s3 = true → String.leb s1 s3 = true.
Proof.
  unfold String.leb. revert s2 s3.
  induction s1 as [|a s1 IH]; intros [|b s2] [|c s3]; simpl; try done.
  destruct (Ascii.compare a b) eqn:Hab; [| |done].
  - apply Ascii.compare_eq_iff in Hab as ->.
    destruct (Ascii.compare b c) eqn:Hbc; [|done|done]. apply IH.
  - intros _ H23.
    assert (Ascii.compare b c ≠ Gt) as Hbc by (by destruct (Ascii.compare b c)).
    by rewrite (ascii_compare_lt_trans a b c Hab Hbc).
Qed.

#[global] Instance id_le_total : Total (id_le (float := float)).
Proof. intros a b. apply String.leb_total. Qed.

#[global] Instance id_le_trans : Transitive (id_le (float := float)).
Proof. intros a b c. apply string_leb_trans. Qed.

(** [entries] lists the map, once each, by ascending key. *)
Lemma entries_perm (m : gmap string Player) : entries m ≡ₚ map_to_list m.
Proof. apply merge_sort_Permutation. Qed.


Lemma elem_of_entries (m : gmap string Player) k p :
  (k, p) ∈ entries m ↔ m !! k = Some p.
Proof. by rewrite entries_perm, elem_of_map_to_list. Qed.

Lemma NoDup_fst_entries (m : gmap string Player) : NoDup (entries m).*1.
Proof. rewrite entries_perm. apply NoDup_fst_map_to_list. Qed.

Lemma length_entries (m : gmap string Player) : length (entries m) = size m.
Proof. by rewrite entries_perm, length_map_to_list. Qed.

Lemma list_to_map_entries (m : gmap string Player) : list_to_map (entries m) = m.
Proof.
  rewrite (list_to_map_proper _ (map_to_list m));
    [apply list_to_map_to_list | apply NoDup_fst_entries | apply entries_perm].
Qed.

(** The spawn loop keeps the keys, in order, and moves the cursor by the
    number of players. *)
Lemma spawn_all_keys (l : list (string * Player)) n : (spawn_all l n).1.*1 = l.*1.
Proof.
  revert n. induction l as [|[k p] l IH]; intros n; simpl; [done|].
  specialize (IH (n + 1)). destruct (spawn_all l (n + 1)) as [l' n'].
  simpl in *. f_equal. exact IH.
Qed.

Lemma spawn_all_cursor (l : list (string * Player)) n :
  (spawn_all l n).2 = n + Z.of_nat (length l).
Proof.
  revert n. induction l as [|[k p] l IH]; intros n; simpl; [lia|].
  specialize (IH (n + 1)). destruct (spawn_all l (n + 1)) as [l' n'].
  simpl in *. lia.
Qed.

Lemma spawn_all_elem (l : list (string * Player)) n k q :
  (k, q) ∈ (spawn_all l n).1 → ∃ p idx, (k, p) ∈ l ∧ q = spawn_at idx p.
Proof.
  revert n. induction l as [|[k' p'] l IH]; intros n; simpl.
  - by rewrite elem_of_nil.
  - specialize (IH (n + 1)). destruct (spawn_all l (n + 1)) as [l' n'].
    simpl in *. rewrite elem_of_cons. intros [Heq | Hin].
    + inversion Heq; subst. eexists _, _. split; [apply elem_of_cons; by left | done].
    + destruct (IH Hin) as (p & idx & Hp & ->).
      eexists _, _. split; [apply elem_of_cons; by right | done].
Qed.

Lemma spawn_all_dom (m : gmap string Player) n :
  dom (list_to_map (spawn_all (entries m) n).1 : gmap string Player) = dom m.
Proof.
  rewrite dom_list_to_map_L, spawn_all_keys.
  rewrite <- dom_list_to_map_L. by rewrite list_to_map_entries.
Qed.

Lemma spawn_all_size (m : gmap string Player) n :
  size (list_to_map (spawn_all (entries m) n).1 : gmap string Player) = size m.
Proof.
  rewrite <- !size_dom. by rewrite spawn_all_dom.
Qed.

(** [all_ready] decides the quorum. *)
Lemma all_ready_quorum (r : Room) : all_ready r = true ↔ quorum r.
Proof.
  unfold all_ready, quorum.
  destruct (map_is_empty (players_ r)) eqn:Hemp.
  - apply map_is_empty_true in Hemp. rewrite Hemp, map_size_empty.
    split; [done | lia].
  - destruct (size (players_ r) <? 2)%nat eqn:Hlt.
    + apply Nat.ltb_lt in Hlt. split; [done | lia].
    + apply Nat.ltb_ge in Hlt. rewrite forallb_forall. split.
      * intros H. split; [done|]. intros pid p Hp.
        apply (H (pid, p)). apply list_elem_of_In. by apply elem_of_entries.
      * intros [_ H] [pid p] Hin. simpl. apply (H pid).
        apply elem_of_entries. by apply list_elem_of_In.
Qed.

Lemma all_ready_small (r : Room) : (size (players_ r) ≤ 1)%nat → all_ready r = false.
Proof.
  intros Hs. destruct (all_ready r) eqn:H; [|done].
  apply all_ready_quorum in H. destruct H. lia.
Qed.

(** *** [start_game] *)

Lemma start_game_waiting (r : Room) :
  state_ r = WAITING →
  ∃ players',
    start_game r =
      (let r2 := mk (id_ r) (max_players_ r) PLAYING players'
                    (disconnected_players_ r) 0 (Z.of_nat (size (players_ r)))
                    (empty_since_ r) (broadcast_fn_ r) in
       (r2, broadcast r2 (game_start_msg r2))) ∧
    dom players' = dom (players_ r) ∧
    players' = list_to_map (spawn_all (entries (players_ r)) 0).1.
Proof.
  intros Hs. unfold start_game. rewrite Hs. simpl.
  pose proof (spawn_all_cursor (entries (players_ r)) 0) as Hc.
  pose proof (spawn_all_dom (players_ r) 0) as Hd.
  destruct (spawn_all (entries (players_ r)) 0) as [l next]. simpl in *.
  exists (list_to_map l). split; [|done].
  rewrite Hc, length_entries. done.
Qed.

Lemma start_game_not_waiting (r : Room) :
  state_ r ≠ WAITING → start_game r = (r, []).
Proof.
  intros Hs. unfold start_game.
  apply RoomState_eqb_neq in Hs. by rewrite Hs.
Qed.

End Facts.

(** ** The lifecycle invariant *)

Ltac room_simpl :=
  unfold insert_player, set_state, set_players, set_disconnected, set_tick,
    set_next_spawn, set_empty_since, set_broadcast_fn in *;
  simpl in *.

Ltac no_some :=
  match goal with
  | H : is_Some None |- _ => destruct H; discriminate
  | H : ?m !! _ = Some _, H0 : ?m = ∅ |- _ =>
      rewrite H0, lookup_empty in H; discriminate
  end.

Ltac inv_auto :=
  intros;
  repeat match goal with
    | H : ?x = ?x → _ |- _ => specialize (H eq_refl)
    | H : ?P → _, H' : ?P |- _ => specialize (H H')
    | H : _ ∧ _ |- _ => destruct H
    | H : emplace _ _ _ = ∅ |- _ => by apply emplace_non_empty in H
    | H : <[_ := _]> _ = ∅ |- _ => by apply insert_non_empty in H
    end;
  try done; try no_some; try (repeat split; congruence).

Section Lifecycle.
Context {float : Type} `{E : Externals float}.

Abbreviation Player := (Player.t float).
Abbreviation Room := (t float).

Lemma lifecycle_inv_new id n : lifecycle_inv (new id n : Room).
Proof.
  split; simpl; intros; try done; no_some.
Qed.

Lemma add_player_inv (r : Room) player :
  lifecycle_inv r → lifecycle_inv (add_player r player).2.
Proof.
  intros Hinv. unfold add_player.
  destruct (has_player r (Player.id player)); [exact Hinv|].
  pose proof Hinv as [Hw Hf He Hg Hd].
  destruct (disconnected_players_ r !! Player.id player) eqn:Hdisc.
  - split; room_simpl.
    + intros Hs. destruct (Hw Hs) as (? & ? & ?). no_some.
    + intros Hs. destruct (Hf Hs) as (? & ?). no_some.
    + intros; no_some.
    + intros _ Hp. by apply emplace_non_empty in Hp.
    + intros; no_some.
  - destruct (is_full r); [exact Hinv|].
    destruct (state_ r) eqn:Hs; simpl. 3: exact Hinv.
    + split; room_simpl; rewrite ?Hs; inv_auto.
    + split; room_simpl; rewrite ?Hs; inv_auto.
Qed.

Lemma remove_player_inv (r : Room) pid now :
  lifecycle_inv r → lifecycle_inv (remove_player r pid now).
Proof.
  intros Hinv. unfold remove_player.
  destruct (players_ r !! pid) as [p|] eqn:Hp; [|exact Hinv].
  pose proof (lookup_non_empty _ _ _ Hp) as Hne.
  pose proof Hinv as [Hw Hf He Hg Hd].
  assert (empty_since_ r = None) as Hnone.
  { destruct (empty_since_ r) eqn:Hes; [|done].
    destruct He as [? _]; [by eexists | done]. }
  destruct (state_ r) eqn:Hs; room_simpl; rewrite ?Hs; simpl.
  - destruct (map_is_empty (delete pid (players_ r))) eqn:Hemp.
    + apply map_is_empty_true in Hemp.
      split; room_simpl; rewrite ?Hnone; inv_auto.
    + split; room_simpl; rewrite ?Hs, ?Hnone; inv_auto.
  - destruct (map_is_empty (delete pid (players_ r))) eqn:Hemp.
    + apply map_is_empty_true in Hemp.
      assert (map_is_empty (<[pid:=p]> (disconnected_players_ r)) = false) as ->.
      { apply map_is_empty_false, insert_non_empty. }
      split; room_simpl; rewrite ?Hs; inv_auto.
      apply insert_non_empty.
    + apply map_is_empty_false in Hemp.
      split; room_simpl; rewrite ?Hs, ?Hnone; inv_auto.
  - inv_auto.
Qed.

Lemma start_game_inv (r : Room) :
  lifecycle_inv r → lifecycle_inv (start_game r).1.
Proof.
  intros Hinv. destruct (state_ r) eqn:Hs.
  2,3: rewrite start_game_not_waiting by (rewrite Hs; done); exact Hinv.
  destruct (start_game_waiting r Hs) as (players' & -> & _ & _).
  pose proof Hinv as [Hw Hf He Hg Hd]. destruct (Hw Hs) as (Hd0 & Ht & Hes).
  split; simpl; rewrite ?Hes; inv_auto.
Qed.

Lemma set_player_ready_inv (r : Room) pid ready :
  lifecycle_inv r → lifecycle_inv (set_player_ready r pid ready).1.
Proof.
  intros Hinv. unfold set_player_ready.
  destruct (players_ r !! pid) as [p|] eqn:Hp; [|exact Hinv].
  pose proof (lookup_non_empty _ _ _ Hp) as Hne.
  set (r1 := set_players _ r).
  assert (lifecycle_inv r1) as Hinv1.
  { pose proof Hinv as [Hw Hf He Hg Hd]. subst r1. split; room_simpl; inv_auto. }
  destruct (all_ready r1 && RoomState_eqb (state_ r1) WAITING); [|exact Hinv1].
  pose proof (start_game_inv r1 Hinv1) as Hsg.
  destruct (start_game r1) as [r2 tr2]. exact Hsg.
Qed.

Lemma update_inv (r : Room) dt now :
  lifecycle_inv r → lifecycle_inv (update r dt now).1.
Proof.
  intros Hinv. unfold update.
  destruct (state_ r) eqn:Hs; simpl; [exact Hinv| |exact Hinv].
  pose proof Hinv as [Hw Hf He Hg Hd].
  destruct (empty_since_ r) as [since|] eqn:Hes.
  - destruct (He ltac:(by eexists)) as [Hpl _].
    destruct (GRACE_SECONDS <=? elapsed_seconds now since).
    + split; room_simpl; rewrite ?Hes; inv_auto.
    + assert (map_is_empty (players_ r) = true) as ->
        by by apply map_is_empty_true.
      exact Hinv.
  - destruct (map_is_empty (players_ r)) eqn:Hemp; [exact Hinv|].
    apply map_is_empty_false in Hemp.
    split; room_simpl; rewrite ?Hs, ?Hes; inv_auto.
    match goal with H : _ <$> _ = ∅ |- _ => apply fmap_empty_inv in H end.
    done.
Qed.

Lemma queue_input_inv (r : Room) pid tick actions :
  lifecycle_inv r → lifecycle_inv (queue_input r pid tick actions).
Proof.
  intros Hinv. unfold queue_input.
  destruct (players_ r !! pid) as [p|] eqn:Hp; [|exact Hinv].
  pose proof (lookup_non_empty _ _ _ Hp) as Hne.
  pose proof Hinv as [Hw Hf He Hg Hd]. split; room_simpl; inv_auto.
Qed.

Lemma step_inv (r : Room) o : lifecycle_inv r → lifecycle_inv (step r o).1.
Proof.
  intros Hinv. destruct o; simpl.
  - by apply add_player_inv.
  - by apply remove_player_inv.
  - by apply set_player_ready_inv.
  - done.
  - by apply start_game_inv.
  - by apply update_inv.
  - by apply queue_input_inv.
  - by destruct Hinv.
Qed.

Lemma reachable_inv (r : Room) : reachable r → lifecycle_inv r.
Proof.
  induction 1; [apply lifecycle_inv_new | by apply step_inv].
Qed.

Lemma run_cons (r : Room) o os : (run r (o :: os)).1 = (run (step r o).1 os).1.
Proof.
  change (run r (o :: os))
    with (let '(r1, tr1) := step r o in
          let '(r2, tr2) := run r1 os in (r2, tr1 ++ tr2)).
  destruct (step r o) as [r1 tr1]. simpl. by destruct (run r1 os).
Qed.

Lemma reachable_run (r : Room) os : reachable r → reachable (run r os).1.
Proof.
  revert r. induction os as [|o os IH]; intros r Hr; simpl; [done|].
  pose proof (reachable_step r o Hr) as H1.
  destruct (step r o) as [r1 tr1]. specialize (IH r1 H1).
  destruct (run r1 os) as [r2 tr2]. done.
Qed.

End Lifecycle.

(** ** Capacity and traces *)

Section Counting.
Context {float : Type} `{E : Externals float}.

Abbreviation Player := (Player.t float).
Abbreviation Room := (t float).

Lemma start_game_size (r : Room) :
  size (players_ (start_game r).1) = size (players_ r) ∧
  max_players_ (start_game r).1 = max_players_ r.
Proof.
  destruct (state_ r) eqn:Hs.
  2,3: by rewrite start_game_not_waiting by (rewrite Hs; done).
  destruct (start_game_waiting r Hs) as (players' & -> & Hdom & _). simpl.
  split; [|done]. by rewrite <- !size_dom, Hdom.
Qed.

Lemma set_player_ready_size (r : Room) pid ready :
  size (players_ (set_player_ready r pid ready).1) = size (players_ r) ∧
  max_players_ (set_player_ready r pid ready).1 = max_players_ r.
Proof.
  unfold set_player_ready.
  destruct (players_ r !! pid) as [p|] eqn:Hp; [|done].
  set (r1 := set_players _ r).
  assert (size (players_ r1) = size (players_ r)) as Hsz.
  { subst r1. simpl. by apply map_size_insert_Some. }
  destruct (all_ready r1 && RoomState_eqb (state_ r1) WAITING); [|done].
  destruct (start_game_size r1) as [H1 H2].
  destruct (start_game r1) as [r2 tr2]. simpl in *. split; congruence.
Qed.

Lemma update_size (r : Room) dt now :
  size (players_ (update r dt now).1) = size (players_ r) ∧
  max_players_ (update r dt now).1 = max_players_ r.
Proof.
  unfold update.
  destruct (negb (RoomState_eqb (state_ r) PLAYING)); [done|].
  destruct (match empty_since_ r with Some _ => _ | None => _ end); [done|].
  destruct (map_is_empty (players_ r)); [done|].
  simpl. by rewrite map_size_fmap.
Qed.

Lemma remove_player_size (r : Room) pid now :
  (size (players_ (remove_player r pid now)) ≤ size (players_ r))%nat ∧
  max_players_ (remove_player r pid now) = max_players_ r.
Proof.
  unfold remove_player.
  destruct (players_ r !! pid) as [p|] eqn:Hp; [|done].
  assert (size (delete pid (players_ r)) ≤ size (players_ r))%nat as Hsz.
  { rewrite map_size_delete_Some by done. lia. }
  destruct (RoomState_eqb (state_ r) PLAYING); room_simpl;
    repeat match goal with |- context [if ?b then _ else _] => destruct b end;
    done.
Qed.

Lemma queue_input_size (r : Room) pid tick actions :
  size (players_ (queue_input r pid tick actions)) = size (players_ r) ∧
  max_players_ (queue_input r pid tick actions) = max_players_ r.
Proof.
  unfold queue_input.
  destruct (players_ r !! pid) as [p|] eqn:Hp; [|done].
  simpl. split; [|done]. by apply map_size_insert_Some.
Qed.

Lemma add_player_max (r : Room) player :
  max_players_ (add_player r player).2 = max_players_ r.
Proof.
  unfold add_player.
  repeat match goal with
         | |- context [if ?b then _ else _] => destruct b
         | |- context [match ?o with Some _ => _ | None => _ end] => destruct o
         end; done.
Qed.

(** A fresh join that succeeds finds the room below capacity. *)
Lemma add_player_fresh_size (r : Room) player :
  disconnected_players_ r !! Player.id player = None →
  player_count r ≤ max_players_ r →
  player_count (add_player r player).2 ≤ max_players_ r.
Proof.
  intros Hdisc Hle. unfold add_player, player_count in *. rewrite Hdisc.
  destruct (has_player r (Player.id player)); [done|].
  unfold is_full. destruct (max_players_ r <=? _) eqn:Hfull; [done|].
  apply Z.leb_gt in Hfull.
  destruct (RoomState_eqb (state_ r) FINISHED); [done|].
  destruct (RoomState_eqb (state_ r) PLAYING); room_simpl;
    match goal with |- context [emplace ?k ?v ?m] =>
      pose proof (emplace_size k v m) end; lia.
Qed.

Lemma step_capacity (r : Room) o :
  ¬ is_reconnect_when_full r o →
  player_count r ≤ max_players_ r →
  player_count (step r o).1 ≤ max_players_ (step r o).1.
Proof.
  intros Hnr Hle. destruct o as [player| | | | | | |]; simpl.
  - rewrite add_player_max. unfold is_reconnect_when_full in Hnr. simpl in Hnr.
    destruct (players_ r !! Player.id player) eqn:Hp.
    + unfold add_player, has_player. by rewrite Hp.
    + destruct (disconnected_players_ r !! Player.id player) as [stored|] eqn:Hd;
        [|by apply add_player_fresh_size].
      assert (player_count r < max_players_ r) as Hlt.
      { destruct (Z.lt_ge_cases (player_count r) (max_players_ r)); [done|].
        destruct Hnr. split; [|done]. split; [done | by eexists]. }
      unfold add_player, has_player, player_count in *. rewrite Hp, Hd.
      room_simpl.
      match goal with |- context [emplace ?k ?v ?m] =>
        pose proof (emplace_size k v m) end. lia.
  - destruct (remove_player_size r player_id now) as [H1 ->].
    unfold player_count in *. lia.
  - destruct (set_player_ready_size r player_id ready) as [H1 ->].
    unfold player_count in *. lia.
  - done.
  - destruct (start_game_size r) as [H1 ->]. unfold player_count in *. lia.
  - destruct (update_size r dt now) as [H1 ->]. unfold player_count in *. lia.
  - destruct (queue_input_size r player_id tick actions) as [H1 ->].
    unfold player_count in *. lia.
  - done.
Qed.

(** Once a room has left [WAITING] it never returns, and no command emits
    a game-start event any more. *)
Lemma step_after_start (r : Room) o :
  state_ r ≠ WAITING →
  state_ (step r o).1 ≠ WAITING ∧ count_game_start (step r o).2 = 0%nat.
Proof.
  intros Hs. destruct o; simpl.
  - split; [|done]. unfold add_player.
    repeat match goal with
           | |- context [if ?b then _ else _] => destruct b
           | |- context [match ?o with Some _ => _ | None => _ end] => destruct o
           end; done.
  - split; [|done]. unfold remove_player.
    destruct (players_ r !! player_id); [|done].
    destruct (state_ r) eqn:Hst; [done| |]; room_simpl;
      repeat match goal with
             | |- context [if ?b then _ else _] => destruct b
             end; simpl; congruence.
  - unfold set_player_ready. destruct (players_ r !! player_id); [|done].
    simpl. apply RoomState_eqb_neq in Hs as Hb. rewrite Hb, andb_false_r.
    done.
  - split; [done|]. unfold handle_chat, get_player.
    by destruct (players_ r !! sender_id).
  - by rewrite start_game_not_waiting.
  - unfold update.
    destruct (state_ r) eqn:Hst; simpl; rewrite ?Hst; [congruence| |done].
    repeat match goal with
           | |- context [if ?b then _ else _] => destruct b
           | |- context [match ?o with Some _ => _ | None => _ end] => destruct o
           end; simpl; rewrite ?Hst; done.
  - split; [|done]. unfold queue_input. by destruct (players_ r !! player_id).
  - done.
Qed.

Lemma run_after_start (r : Room) os :
  state_ r ≠ WAITING →
  state_ (run r os).1 ≠ WAITING ∧ count_game_start (run r os).2 = 0%nat.
Proof.
  revert r. induction os as [|o os IH]; intros r Hs; simpl; [done|].
  destruct (step_after_start r o Hs) as [H1 H2].
  destruct (step r o) as [r1 tr1]. simpl in *.
  destruct (IH r1 H1) as [H3 H4].
  destruct (run r1 os) as [r2 tr2]. simpl in *. split; [done|].
  unfold count_game_start in *. rewrite List.filter_app, length_app. lia.
Qed.

End Counting.

(** ** Entries are stored under their own id

    This needs the two methods of [Player] the room calls to leave the id
    alone, which their declarations (not at hand) are assumed to do. *)

Section Keys.
Context {float : Type} `{E : Externals float}.
Hypothesis spawn_id :
  ∀ sx sy (p : Player.t float), Player.id (spawn sx sy p) = Player.id p.
Hypothesis process_input_id :
  ∀ dt (p : Player.t float), Player.id (process_input dt p) = Player.id p.

Abbreviation Player := (Player.t float).
Abbreviation Room := (t float).

Lemma keyed_insert (m : gmap string Player) k v :
  keyed_by_id m → Player.id v = k → keyed_by_id (<[k := v]> m).
Proof.
  intros Hm Hv k' p. rewrite lookup_insert. case_decide; [|by apply Hm].
  intros [= <-]. congruence.
Qed.

Lemma keyed_delete (m : gmap string Player) k :
  keyed_by_id m → keyed_by_id (delete k m).
Proof.
  intros Hm k' p Hl. apply lookup_delete_Some in Hl as [_ Hl]. by apply Hm.
Qed.

Lemma keyed_emplace (m : gmap string Player) p :
  keyed_by_id m → keyed_by_id (emplace (Player.id p) p m).
Proof.
  intros Hm. unfold emplace. destruct (m !! Player.id p); [done|].
  by apply keyed_insert.
Qed.

Lemma keyed_spawn_all (m : gmap string Player) n :
  keyed_by_id m → keyed_by_id (list_to_map (spawn_all (entries m) n).1).
Proof.
  intros Hm k q Hl. apply elem_of_list_to_map_2 in Hl.
  apply spawn_all_elem in Hl as (p & idx & Hp & ->).
  apply elem_of_entries in Hp. unfold spawn_at. rewrite spawn_id.
  by apply Hm.
Qed.

Lemma keys_inv_new id n : keys_inv (new id n : Room).
Proof. split; intros k p; simpl; by rewrite lookup_empty. Qed.

Lemma add_player_keys (r : Room) player :
  keys_inv r → keys_inv (add_player r player).2.
Proof.
  intros [Hp Hd]. unfold add_player.
  destruct (has_player r (Player.id player)); [done|].
  destruct (disconnected_players_ r !! Player.id player) as [stored|] eqn:Hst.
  - split; room_simpl; [|by apply keyed_delete].
    by apply (keyed_emplace _ (Player.set_display_name _ (Player.set_name _ stored))).
  - destruct (is_full r); [done|].
    destruct (RoomState_eqb (state_ r) FINISHED); [done|].
    destruct (RoomState_eqb (state_ r) PLAYING); split; room_simpl;
      try done; by apply keyed_emplace.
Qed.

Lemma remove_player_keys (r : Room) pid now :
  keys_inv r → keys_inv (remove_player r pid now).
Proof.
  intros [Hp Hd]. unfold remove_player.
  destruct (players_ r !! pid) as [p|] eqn:Hl; [|done].
  pose proof (Hp _ _ Hl) as Hid.
  destruct (RoomState_eqb (state_ r) PLAYING); room_simpl;
    repeat match goal with |- context [if ?b then _ else _] => destruct b end;
    split; simpl; auto using keyed_delete, keyed_insert.
Qed.

Lemma start_game_keys (r : Room) : keys_inv r → keys_inv (start_game r).1.
Proof.
  intros [Hp Hd]. destruct (state_ r) eqn:Hs.
  2,3: by rewrite start_game_not_waiting by (rewrite Hs; done).
  destruct (start_game_waiting r Hs) as (players' & -> & _ & ->).
  split; simpl; [by apply keyed_spawn_all | done].
Qed.

Lemma set_player_ready_keys (r : Room) pid ready :
  keys_inv r → keys_inv (set_player_ready r pid ready).1.
Proof.
  intros [Hp Hd]. unfold set_player_ready.
  destruct (players_ r !! pid) as [p|] eqn:Hl; [|done].
  set (r1 := set_players _ r).
  assert (keys_inv r1) as Hk1.
  { subst r1. split; simpl; [|done]. apply keyed_insert; [done|].
    simpl. by apply Hp. }
  destruct (all_ready r1 && RoomState_eqb (state_ r1) WAITING); [|done].
  pose proof (start_game_keys r1 Hk1) as Hsg.
  by destruct (start_game r1).
Qed.

Lemma update_keys (r : Room) dt now : keys_inv r → keys_inv (update r dt now).1.
Proof.
  intros [Hp Hd]. unfold update.
  destruct (negb (RoomState_eqb (state_ r) PLAYING)); [done|].
  destruct (match empty_since_ r with Some _ => _ | None => _ end).
  { split; simpl; [done|]. intros k p. by rewrite lookup_empty. }
  destruct (map_is_empty (players_ r)); [done|].
  split; simpl; [|done]. intros k q Hq.
  apply lookup_fmap_Some in Hq as (p & <- & Hl).
  rewrite process_input_id. by apply Hp.
Qed.

Lemma queue_input_keys (r : Room) pid tick actions :
  keys_inv r → keys_inv (queue_input r pid tick actions).
Proof.
  intros [Hp Hd]. unfold queue_input.
  destruct (players_ r !! pid) as [p|] eqn:Hl; [|done].
  split; simpl; [|done]. apply keyed_insert; [done|]. simpl. by apply Hp.
Qed.

Lemma step_keys (r : Room) o : keys_inv r → keys_inv (step r o).1.
Proof.
  intros Hk. destruct o; simpl;
    auto using add_player_keys, remove_player_keys, set_player_ready_keys,
      start_game_keys, update_keys, queue_input_keys.
Qed.

Lemma reachable_keys (r : Room) : reachable r → keys_inv r.
Proof.
  induction 1; [apply keys_inv_new | by apply step_keys].
Qed.

End Keys.

(** ** Properties of the operations *)

Section Properties.
Context {float : Type} `{E : Externals float}.

Abbreviation Player := (Player.t float).
Abbreviation Room := (t float).

(** Whenever [add_player] reports success the grace timestamp is gone. *)
Lemma add_player_clears (r r' : Room) player :
  add_player r player = (true, r') → empty_since_ r' = None.
Proof.
  unfold add_player.
  repeat match goal with
         | |- context [if ?b then _ else _] => destruct b
         | |- context [match ?o with Some _ => _ | None => _ end] => destruct o
         end; intros [= <-]; done.
Qed.

(** [remove_player] touches the timestamp only on emptying the room. *)
Lemma remove_player_sets (r : Room) pid now :
  empty_since_ (remove_player r pid now) ≠ empty_since_ r →
  players_ (remove_player r pid now) = ∅ ∧
  empty_since_ (remove_player r pid now) = Some now ∧
  is_Some (players_ r !! pid).
Proof.
  unfold remove_player.
  destruct (players_ r !! pid) as [p|] eqn:Hp; [|done].
  destruct (state_ r) eqn:Hs; room_simpl; rewrite ?Hs; simpl;
    (destruct (map_is_empty (delete pid (players_ r))) eqn:Hemp; [|done]);
    apply map_is_empty_true in Hemp; try done.
  destruct (negb _); simpl; [by eauto | done].
Qed.

(** Outside [PLAYING], a leaving player is not kept for a reconnect. *)
Lemma remove_player_keeps_disconnected (r : Room) pid now :
  state_ r ≠ PLAYING →
  disconnected_players_ (remove_player r pid now) = disconnected_players_ r.
Proof.
  intros Hs. apply RoomState_eqb_neq in Hs. unfold remove_player.
  destruct (players_ r !! pid); [|done]. rewrite Hs. room_simpl. rewrite Hs.
  simpl. repeat match goal with |- context [if ?b then _ else _] => destruct b end;
    done.
Qed.

(** The seconds the code computes reach the threshold as soon as the real
    elapsed time does. *)
Lemma elapsed_seconds_reached now since :
  0 < clock_periods_per_second →
  GRACE_SECONDS * clock_periods_per_second ≤ now - since →
  GRACE_SECONDS ≤ elapsed_seconds now since.
Proof.
  intros Hpos Hle. unfold elapsed_seconds.
  rewrite <- (Z.quot_mul GRACE_SECONDS clock_periods_per_second) at 1 by lia.
  apply Z.quot_le_mono; lia.
Qed.

(** How one command moves the tick counter. *)
Lemma step_tick (r : Room) o :
  lifecycle_inv r →
  tick_ (step r o).1 = tick_ r ∨
  ((∃ dt now, o = Update dt now) ∧ state_ r = PLAYING ∧ players_ r ≠ ∅ ∧
   tick_ (step r o).1 = tick_ r + 1).
Proof.
  intros Hinv.
  assert (tick_ (start_game r).1 = tick_ r) as Hsg.
  { destruct (state_ r) eqn:Hs.
    2,3: by rewrite start_game_not_waiting by (rewrite Hs; done).
    destruct (start_game_waiting r Hs) as (players' & -> & _). simpl.
    by destruct (inv_waiting r Hinv Hs) as (_ & -> & _). }
  destruct o; simpl.
  - left. unfold add_player.
    repeat match goal with
           | |- context [if ?b then _ else _] => destruct b
           | |- context [match ?o with Some _ => _ | None => _ end] => destruct o
           end; done.
  - left. unfold remove_player.
    destruct (players_ r !! player_id); [|done]. room_simpl.
    repeat match goal with |- context [if ?b then _ else _] => destruct b end;
      done.
  - left. unfold set_player_ready.
    destruct (players_ r !! player_id) as [p|] eqn:Hp; [|done].
    set (r1 := set_players _ r).
    destruct (all_ready r1 && RoomState_eqb (state_ r1) WAITING) eqn:Hc;
      [|done].
    apply andb_true_iff in Hc as [_ Hs]. apply RoomState_eqb_eq in Hs.
    destruct (start_game_waiting r1 Hs) as (players' & -> & _). simpl.
    by destruct (inv_waiting r Hinv Hs) as (_ & -> & _).
  - by left.
  - by left.
  - unfold update. destruct (state_ r) eqn:Hs; simpl; [by left| |by left].
    destruct (match empty_since_ r with Some _ => _ | None => _ end);
      [by left|].
    destruct (map_is_empty (players_ r)) eqn:Hemp; [by left|].
    apply map_is_empty_false in Hemp. right. simpl.
    split; [by eexists _, _|]. done.
  - left. unfold queue_input. by destruct (players_ r !! player_id).
  - by left.
Qed.

End Properties.

(** ** The claims *)

Section Claims.
Context {float : Type} `{E : Externals float}.

Abbreviation Player := (Player.t float).
Abbreviation Room := (t float).

(** C1 (as the code has it).  [start_game] looks at the room state only: in
    [WAITING] it always fires the transition to [PLAYING], resetting the tick
    and announcing the start with one broadcast, whatever the number and the
    readiness of the connected players; outside [WAITING] it changes nothing
    and emits nothing.  The ready quorum is checked by [set_player_ready],
    which starts the game only when the quorum holds after its write. *)
Theorem start_game_guard (r : Room) :
  (state_ r = WAITING →
     state_ (start_game r).1 = PLAYING ∧
     tick_ (start_game r).1 = 0 ∧
     next_spawn_ (start_game r).1 = player_count r ∧
     length (start_game r).2 = 1%nat ∧
     count_game_start (start_game r).2 = 1%nat) ∧
  (state_ r ≠ WAITING → start_game r = (r, [])) ∧
  (∀ pid ready,
     state_ r = WAITING →
     state_ (set_player_ready r pid ready).1 = PLAYING →
     ∃ p, players_ r !! pid = Some p ∧
          quorum (set_players (<[pid := Player.set_ready ready p]> (players_ r)) r)).
Proof.
  split; [|split].
  - intros Hs. destruct (start_game_waiting r Hs) as (players' & -> & _).
    simpl. repeat split; done.
  - apply start_game_not_waiting.
  - intros pid ready Hs. unfold set_player_ready.
    destruct (players_ r !! pid) as [p|] eqn:Hp; simpl; [|congruence].
    set (r1 := set_players _ r).
    destruct (all_ready r1) eqn:Har.
    + intros _. exists p. split; [done|]. by apply all_ready_quorum.
    + simpl. congruence.
Qed.

(** C2 (as the code has it).  In every reachable room: an empty PLAYING room
    that still holds disconnected players has [empty_since] set; when
    [empty_since] is set no player is connected and the room is either
    PLAYING with disconnected players, or FINISHED with none (the timestamp
    outlives the expiry of the grace period); and a successful [add_player]
    clears it. *)
Theorem empty_since_characterised (r : Room) :
  reachable r →
  (players_ r = ∅ ∧ state_ r = PLAYING ∧ disconnected_players_ r ≠ ∅ →
     is_Some (empty_since_ r)) ∧
  (is_Some (empty_since_ r) →
     players_ r = ∅ ∧
     ((state_ r = PLAYING ∧ disconnected_players_ r ≠ ∅) ∨
      (state_ r = FINISHED ∧ disconnected_players_ r = ∅))) ∧
  (∀ player r', add_player r player = (true, r') → empty_since_ r' = None).
Proof.
  intros Hr. apply reachable_inv in Hr as [Hw Hf He Hg Hd].
  split; [|split].
  - intros (Hp & Hs & Hdisc). by apply Hg.
  - intros Hes. destruct (He Hes) as [Hp Hnw]. split; [done|].
    destruct (state_ r) eqn:Hs; [done| |].
    + left. split; [done|]. by apply Hd.
    + right. split; [done|]. by destruct (Hf eq_refl).
  - intros player r'. apply add_player_clears.
Qed.

(** C3 (as the code has it).  Every command other than a reconnect into a
    room that is already full keeps the number of connected players within
    [max_players]; so a room created with a non-negative capacity stays
    within it as long as no such reconnect happens: fresh joins, and
    reconnects while a slot is free, never break the bound, and a fresh join
    into a full room fails.  A reconnect is not checked against the
    capacity: it always succeeds, and in a reachable room (the player
    methods keeping the id) adds one connected player whatever the count. *)
Theorem capacity_bound :
  (∀ (r : Room) o,
     player_count r ≤ max_players_ r → ¬ is_reconnect_when_full r o →
     player_count (step r o).1 ≤ max_players_ (step r o).1) ∧
  (∀ r : Room, reachable_within r → player_count r ≤ max_players_ r) ∧
  (∀ (r : Room) player,
     disconnected_players_ r !! Player.id player = None →
     max_players_ r ≤ player_count r →
     add_player r player = (false, r)) ∧
  (∀ (r : Room) player,
     is_reconnect r (AddPlayer player) → (add_player r player).1 = true) ∧
  (∀ (r : Room) player,
     (∀ sx sy (p : Player), Player.id (spawn sx sy p) = Player.id p) →
     (∀ dt (p : Player), Player.id (process_input dt p) = Player.id p) →
     reachable r →
     is_reconnect r (AddPlayer player) →
     player_count (add_player r player).2 = player_count r + 1).
Proof.
  split; [|split; [|split; [|split]]].
  - intros r o Hle Hnr. by apply step_capacity.
  - intros r Hr. induction Hr as [id n Hn | r o Hr IH Hnr].
    + unfold player_count. simpl. rewrite map_size_empty. simpl. lia.
    + by apply step_capacity.
  - intros r player Hd Hfull. unfold add_player. rewrite Hd.
    destruct (has_player r (Player.id player)); [done|].
    unfold is_full, player_count in *. apply Z.leb_le in Hfull.
    by rewrite Hfull.
  - intros r player [Hp [stored Hst]]. unfold add_player, has_player.
    by rewrite Hp, Hst.
  - intros r player Hsp Hpi Hr [Hp [stored Hst]].
    destruct (reachable_keys Hsp Hpi r Hr) as [_ Hkd].
    pose proof (Hkd _ _ Hst) as Hid.
    unfold add_player, has_player, player_count. rewrite Hp, Hst.
    room_simpl. unfold emplace. rewrite Hid, Hp.
    rewrite map_size_insert_None by done. lia.
Qed.

(** The ids a broadcast goes to are the keys of the player map. *)
Lemma elem_of_keys (m : gmap string Player) pid : pid ∈ keys m ↔ pid ∈ dom m.
Proof.
  unfold keys. rewrite elem_of_dom, list_elem_of_fmap. split.
  - intros ([k p] & -> & Hin). apply elem_of_entries in Hin. by eexists.
  - intros [p Hp]. exists (pid, p). split; [done|]. by apply elem_of_entries.
Qed.

(** C4.  [all_ready] is false for a room with no or one connected player; a
    room with exactly one connected player is never started by
    [set_player_ready]; in a WAITING room of exactly two players of which one
    is ready, marking the other ready starts the game: the room is PLAYING
    and the call made two broadcasts, the ready-state event and then one
    game-start event (sent to both players when a delivery target is set),
    and no later command emits a game-start event again. *)
Theorem auto_start_quorum :
  (∀ r : Room, (size (players_ r) ≤ 1)%nat → all_ready r = false) ∧
  (∀ (r : Room) pid ready,
     size (players_ r) = 1%nat →
     state_ (set_player_ready r pid ready).1 = state_ r ∧
     count_game_start (set_player_ready r pid ready).2 = 0%nat) ∧
  (∀ (r : Room) a b pa pb,
     state_ r = WAITING → a ≠ b →
     players_ r = {[a := pa; b := pb]} →
     Player.ready pa = true →
     state_ (set_player_ready r b true).1 = PLAYING ∧
     tick_ (set_player_ready r b true).1 = 0 ∧
     (∃ e1 e2,
        (set_player_ready r b true).2 = [e1; e2] ∧
        payload e1 = ready_state_msg b true ∧
        is_game_start e1 = false ∧
        is_game_start e2 = true ∧
        ∀ pid, pid ∈ sent_to e2 ↔
               broadcast_fn_ r = true ∧ (pid = a ∨ pid = b)) ∧
     count_game_start (set_player_ready r b true).2 = 1%nat ∧
     ∀ os, state_ (run (set_player_ready r b true).1 os).1 ≠ WAITING ∧
           count_game_start (run (set_player_ready r b true).1 os).2 = 0%nat).
Proof.
  split; [apply all_ready_small|]. split.
  - intros r pid ready Hsz. unfold set_player_ready.
    destruct (players_ r !! pid) as [p|] eqn:Hp; [|done].
    set (r1 := set_players _ r).
    assert (all_ready r1 = false) as ->.
    { apply all_ready_small. subst r1. simpl.
      rewrite map_size_insert_Some by done. lia. }
    done.
  - intros r a b pa pb Hs Hab Hpl Hra.
    assert (players_ r !! b = Some pb) as Hb.
    { rewrite Hpl. rewrite lookup_insert_ne by done. apply lookup_singleton_eq. }
    unfold set_player_ready. rewrite Hb.
    set (r1 := set_players _ r).
    assert (all_ready r1 = true) as Har.
    { apply all_ready_quorum. subst r1. split; simpl.
      - rewrite map_size_insert_Some by done. rewrite Hpl.
        rewrite map_size_insert_None by by rewrite lookup_singleton_ne.
        rewrite map_size_singleton. lia.
      - intros pid p. rewrite lookup_insert. case_decide; [by intros [= <-]|].
        rewrite Hpl, lookup_insert. case_decide; [by intros [= <-]|].
        rewrite lookup_singleton_ne by done. done. }
    assert (state_ r1 = WAITING) as Hs1 by done.
    rewrite Har. apply RoomState_eqb_eq in Hs1 as Hs1b. rewrite Hs1b. simpl.
    destruct (start_game_waiting r1 Hs1) as (players' & -> & Hdom & _).
    simpl. split; [done|]. split; [done|]. split; [|split; [done|]].
    + eexists _, _. split; [done|]. simpl. split; [done|].
      split; [done|]. split; [done|]. intros pid.
      destruct (broadcast_fn_ r).
      * rewrite elem_of_keys, Hdom. subst r1. simpl.
        rewrite dom_insert_L, Hpl, dom_insert_L, dom_singleton_L.
        rewrite !elem_of_union, !elem_of_singleton. intuition.
      * rewrite elem_of_nil. intuition discriminate.
    + intros os. by apply run_after_start.
Qed.

(** C5.  In a reachable room (the player methods keeping the id), adding a
    player whose id is among the disconnected players and not connected
    succeeds: the record now connected under that id has the stored
    position, ready flag, pending actions and last input tick, carries the
    name and the display name given in the call, and the id is no longer
    among the disconnected players. *)
Theorem reconnect_restores (r : Room) (player stored : Player) :
  (∀ sx sy (p : Player), Player.id (spawn sx sy p) = Player.id p) →
  (∀ dt (p : Player), Player.id (process_input dt p) = Player.id p) →
  reachable r →
  disconnected_players_ r !! Player.id player = Some stored →
  players_ r !! Player.id player = None →
  ∃ r' p',
    add_player r player = (true, r') ∧
    players_ r' !! Player.id player = Some p' ∧
    Player.id p' = Player.id player ∧
    Player.x p' = Player.x stored ∧
    Player.y p' = Player.y stored ∧
    Player.ready p' = Player.ready stored ∧
    Player.pending_actions p' = Player.pending_actions stored ∧
    Player.last_input_tick p' = Player.last_input_tick stored ∧
    Player.name p' = Player.name player ∧
    Player.display_name p' = Player.display_name player ∧
    disconnected_players_ r' !! Player.id player = None ∧
    disconnected_players_ r' = delete (Player.id player) (disconnected_players_ r) ∧
    (∀ pid, pid ≠ Player.id player → players_ r' !! pid = players_ r !! pid).
Proof.
  intros Hsp Hpi Hr Hst Hpl.
  destruct (reachable_keys Hsp Hpi r Hr) as [_ Hkd].
  pose proof (Hkd _ _ Hst) as Hid.
  unfold add_player, has_player. rewrite Hpl, Hst.
  eexists _, _. split; [done|]. room_simpl. unfold emplace. rewrite Hid, Hpl.
  rewrite lookup_insert_eq. split; [done|]. simpl.
  repeat (split; [done|]).
  split; [apply lookup_delete_eq|]. split; [done|].
  intros pid Hne. by apply lookup_insert_ne.
Qed.

(** C6.  When [update] runs on a PLAYING room whose grace period has lasted
    at least [GRACE_SECONDS] seconds of clock time (the clock counting a
    positive number of periods per second), the room becomes FINISHED, the
    disconnected players are dropped, the tick counter is left alone and
    nothing is broadcast. *)
Theorem grace_expiry (r : Room) dt now since :
  0 < clock_periods_per_second →
  state_ r = PLAYING →
  empty_since_ r = Some since →
  GRACE_SECONDS * clock_periods_per_second ≤ now - since →
  state_ (update r dt now).1 = FINISHED ∧
  disconnected_players_ (update r dt now).1 = ∅ ∧
  tick_ (update r dt now).1 = tick_ r ∧
  players_ (update r dt now).1 = players_ r ∧
  (update r dt now).2 = [].
Proof.
  intros Hpos Hs Hes Hle. apply elapsed_seconds_reached in Hle; [|done].
  unfold update. rewrite Hs, Hes. simpl.
  apply Z.leb_le in Hle. rewrite Hle. done.
Qed.

(** C7.  From any reachable room, a command never lowers the tick counter;
    the only command that changes it is an [update] issued while the room is
    PLAYING with a connected player, which adds one; in WAITING and in
    FINISHED no command changes it; hence no sequence of commands lowers
    it. *)
Theorem tick_monotone (r : Room) :
  reachable r →
  (∀ o, tick_ r ≤ tick_ (step r o).1 ∧
        (tick_ (step r o).1 ≠ tick_ r →
           (∃ dt now, o = Update dt now) ∧ state_ r = PLAYING ∧
           players_ r ≠ ∅ ∧ tick_ (step r o).1 = tick_ r + 1) ∧
        (state_ r = WAITING ∨ state_ r = FINISHED →
           tick_ (step r o).1 = tick_ r)) ∧
  (∀ os, tick_ r ≤ tick_ (run r os).1).
Proof.
  intros Hr.
  assert (∀ r0 : Room, reachable r0 → ∀ o, tick_ r0 ≤ tick_ (step r0 o).1) as Hmono.
  { intros r0 Hr0 o. apply reachable_inv in Hr0.
    destruct (step_tick r0 o Hr0) as [-> | (_ & _ & _ & ->)]; lia. }
  split.
  - intros o. pose proof (reachable_inv r Hr) as Hinv.
    destruct (step_tick r o Hinv) as [Heq | (Hu & Hs & Hp & Heq)].
    + rewrite Heq. split; [lia|]. split; [congruence | done].
    + rewrite Heq. split; [lia|]. split; [done|].
      intros [H | H]; congruence.
  - intros os. revert r Hr. induction os as [|o os IH]; intros r Hr; simpl; [lia|].
    pose proof (Hmono r Hr o) as H1.
    pose proof (reachable_step r o Hr) as Hr1.
    destruct (step r o) as [r1 tr1]. simpl in *.
    specialize (IH r1 Hr1). destruct (run r1 os) as [r2 tr2]. simpl in *. lia.
Qed.

(** C8 (as the code has it).  [handle_chat] does nothing for a sender that
    is not connected; for a connected sender it makes exactly one broadcast,
    a chat event that carries the sender's id, the sender's [name] (not the
    [display_name]) and the message text unchanged, to the connected
    players. *)
Theorem handle_chat_event (r : Room) (sender_id message : string) :
  (players_ r !! sender_id = None → handle_chat r sender_id message = []) ∧
  (∀ p, players_ r !! sender_id = Some p →
     ∃ e, handle_chat r sender_id message = [e] ∧
          msg_type (payload e) = Some "chat_message"%string ∧
          field "player_id" (payload e) = Some (JString sender_id) ∧
          field "player_name" (payload e) = Some (JString (Player.name p)) ∧
          field "message" (payload e) = Some (JString message) ∧
          sent_to e = if broadcast_fn_ r then keys (players_ r) else []).
Proof.
  unfold handle_chat, get_player. split.
  - by intros ->.
  - intros p ->. eexists. split; [done|]. simpl. repeat split; done.
Qed.

(** C9.  In every reachable room, a set [empty_since] means that no player
    is connected: a successful [add_player] clears it, and [remove_player]
    writes it only when it has just removed the last connected player. *)
Theorem empty_since_no_players (r : Room) :
  reachable r →
  (is_Some (empty_since_ r) → players_ r = ∅) ∧
  (∀ player r', add_player r player = (true, r') → empty_since_ r' = None) ∧
  (∀ pid now,
     empty_since_ (remove_player r pid now) ≠ empty_since_ r →
     players_ (remove_player r pid now) = ∅ ∧ is_Some (players_ r !! pid)).
Proof.
  intros Hr. apply reachable_inv in Hr as [Hw Hf He Hg Hd].
  split; [|split].
  - intros Hes. by destruct (He Hes).
  - intros player r'. apply add_player_clears.
  - intros pid now Hne. by destruct (remove_player_sets r pid now Hne) as (? & _ & ?).
Qed.

(** C10.  A reachable room in FINISHED holds no disconnected players, so
    every [add_player] on it fails and leaves it as it is; outside PLAYING
    [remove_player] never adds an entry to the disconnected players. *)
Theorem finished_room_closed (r : Room) :
  reachable r →
  state_ r = FINISHED →
  disconnected_players_ r = ∅ ∧
  (∀ player, add_player r player = (false, r)) ∧
  (∀ pid now,
     disconnected_players_ (remove_player r pid now) = disconnected_players_ r).
Proof.
  intros Hr Hs. apply reachable_inv in Hr as [Hw Hf He Hg Hd].
  destruct (Hf Hs) as [Hdisc Hpl]. split; [done|]. split.
  - intros player. unfold add_player, has_player.
    rewrite Hpl, Hdisc, !lookup_empty, Hs. simpl. by destruct (is_full r).
  - intros pid now. apply remove_player_keeps_disconnected. congruence.
Qed.

End Claims.

(** ** Further properties of the operations *)

Section Transitions.
Context {float : Type} `{E : Externals float}.

Abbreviation Player := (Player.t float).
Abbreviation Room := (t float).

(** Marking a player as not ready leaves the quorum unmet. *)
Lemma all_ready_after_unready (r : Room) pid p :
  all_ready (set_players (<[pid := Player.set_ready false p]> (players_ r)) r)
  = false.
Proof.
  destruct (all_ready _) eqn:H; [|done].
  apply all_ready_quorum in H as [_ H]. simpl in H.
  specialize (H pid (Player.set_ready false p)).
  rewrite lookup_insert_eq in H. by specialize (H eq_refl).
Qed.

(** What one command can do to the room state. *)
Lemma step_state (r : Room) o :
  state_ (step r o).1 = state_ r ∨
  (state_ r = WAITING ∧ state_ (step r o).1 = PLAYING ∧
   (o = StartGame ∨ ∃ pid, o = SetPlayerReady pid true)) ∨
  (state_ r = WAITING ∧ state_ (step r o).1 = FINISHED ∧
   ∃ pid now, o = RemovePlayer pid now ∧ is_Some (players_ r !! pid) ∧
              players_ (step r o).1 = ∅) ∨
  (state_ r = PLAYING ∧ state_ (step r o).1 = FINISHED ∧
   ∃ dt now since, o = Update dt now ∧ empty_since_ r = Some since ∧
                   GRACE_SECONDS ≤ elapsed_seconds now since).
Proof.
  destruct o; simpl.
  - left. unfold add_player.
    repeat match goal with
           | |- context [if ?b then _ else _] => destruct b
           | |- context [match ?o with Some _ => _ | None => _ end] => destruct o
           end; done.
  - unfold remove_player.
    destruct (players_ r !! player_id) as [p|] eqn:Hp; [|by left].
    destruct (state_ r) eqn:Hs; room_simpl; rewrite ?Hs; simpl.
    + destruct (map_is_empty (delete player_id (players_ r))) eqn:Hemp;
        [|by left].
      apply map_is_empty_true in Hemp. right. right. left.
      repeat split; try done. eexists _, _. repeat split; try done.
    + left. repeat match goal with
                   | |- context [if ?b then _ else _] => destruct b
                   end; done.
    + left. by destruct (map_is_empty _).
  - unfold set_player_ready.
    destruct (players_ r !! player_id) as [p|] eqn:Hp; [|by left].
    destruct ready.
    + set (r1 := set_players _ r).
      destruct (all_ready r1 && RoomState_eqb (state_ r1) WAITING) eqn:Hc;
        [|by left].
      apply andb_true_iff in Hc as [_ Hs]. apply RoomState_eqb_eq in Hs.
      destruct (start_game_waiting r1 Hs) as (players' & -> & _). simpl.
      right. left. repeat split; try done. right. by eexists.
    + rewrite all_ready_after_unready. by left.
  - by left.
  - destruct (state_ r) eqn:Hs.
    2,3: rewrite start_game_not_waiting by (rewrite Hs; done); left; done.
    destruct (start_game_waiting r Hs) as (players' & -> & _). simpl.
    right. left. repeat split; try done. by left.
  - unfold update. destruct (state_ r) eqn:Hs; simpl; [by left| |by left].
    destruct (empty_since_ r) as [since|] eqn:Hes.
    + destruct (GRACE_SECONDS <=? elapsed_seconds now since) eqn:Hle.
      * apply Z.leb_le in Hle. right. right. right. simpl.
        repeat split; try done. by eexists _, _, _.
      * left. destruct (map_is_empty (players_ r)); simpl; done.
    + left. destruct (map_is_empty (players_ r)); simpl; done.
  - left. unfold queue_input. by destruct (players_ r !! player_id).
  - by left.
Qed.

(** X1.  The room state only moves forward, WAITING, PLAYING, FINISHED, under
    every command and every sequence of commands, and each move has one
    cause: WAITING to PLAYING is [start_game] or a [set_player_ready] to
    true; WAITING to FINISHED is the [remove_player] of the last connected
    player; PLAYING to FINISHED is an [update] that finds the grace period
    expired. *)
Theorem state_moves_forward (r : Room) :
  (∀ o, (state_rank (state_ r) ≤ state_rank (state_ (step r o).1))%nat) ∧
  (∀ os, (state_rank (state_ r) ≤ state_rank (state_ (run r os).1))%nat) ∧
  (∀ o, state_ r = WAITING → state_ (step r o).1 = PLAYING →
        o = StartGame ∨ ∃ pid, o = SetPlayerReady pid true) ∧
  (∀ o, state_ r = WAITING → state_ (step r o).1 = FINISHED →
        ∃ pid now, o = RemovePlayer pid now ∧ is_Some (players_ r !! pid) ∧
                   players_ (step r o).1 = ∅) ∧
  (∀ o, state_ r = PLAYING → state_ (step r o).1 = FINISHED →
        ∃ dt now since, o = Update dt now ∧ empty_since_ r = Some since ∧
                        GRACE_SECONDS ≤ elapsed_seconds now since).
Proof.
  assert (∀ (r0 : Room) o,
            (state_rank (state_ r0) ≤ state_rank (state_ (step r0 o).1))%nat)
    as Hstep.
  { intros r0 o.
    destruct (step_state r0 o)
      as [-> | [(-> & -> & _) | [(-> & -> & _) | (-> & -> & _)]]];
      simpl; lia. }
  split; [apply Hstep|]. split; [|split; [|split]].
  - intros os. revert r. induction os as [|o os IH]; intros r; [simpl; lia|].
    rewrite run_cons. specialize (IH (step r o).1). specialize (Hstep r o). lia.
  - intros o Hs Hs'.
    destruct (step_state r o)
      as [H | [(_ & _ & H) | [(_ & H & _) | (H & _)]]]; try done; congruence.
  - intros o Hs Hs'.
    destruct (step_state r o)
      as [H | [(_ & H & _) | [(_ & _ & H) | (H & _)]]]; try done; congruence.
  - intros o Hs Hs'.
    destruct (step_state r o)
      as [H | [(H & _) | [(H & _) | (_ & _ & H)]]]; try done; congruence.
Qed.

(** The room id and the capacity are never changed by a command. *)
Lemma step_identity (r : Room) o :
  id_ (step r o).1 = id_ r ∧ max_players_ (step r o).1 = max_players_ r.
Proof.
  destruct o; simpl.
  - split; [|apply add_player_max]. unfold add_player.
    repeat match goal with
           | |- context [if ?b then _ else _] => destruct b
           | |- context [match ?o with Some _ => _ | None => _ end] => destruct o
           end; done.
  - unfold remove_player. destruct (players_ r !! player_id); [|done].
    room_simpl.
    repeat match goal with |- context [if ?b then _ else _] => destruct b end;
      done.
  - unfold set_player_ready. destruct (players_ r !! player_id); [|done].
    set (r1 := set_players _ r).
    destruct (all_ready r1 && RoomState_eqb (state_ r1) WAITING) eqn:Hc;
      [|done].
    apply andb_true_iff in Hc as [_ Hs]. apply RoomState_eqb_eq in Hs.
    by destruct (start_game_waiting r1 Hs) as (players' & -> & _).
  - done.
  - destruct (state_ r) eqn:Hs.
    2,3: by rewrite start_game_not_waiting by (rewrite Hs; done).
    by destruct (start_game_waiting r Hs) as (players' & -> & _).
  - unfold update.
    repeat match goal with
           | |- context [if ?b then _ else _] => destruct b
           | |- context [match ?o with Some _ => _ | None => _ end] => destruct o
           end; done.
  - unfold queue_input. by destruct (players_ r !! player_id).
  - done.
Qed.

(** X2.  Whatever the commands, a room keeps the id and the capacity it was
    constructed with. *)
Theorem identity_immutable (id : string) (max_players : Z) os :
  id_ (run (new id max_players : Room) os).1 = id ∧
  max_players_ (run (new id max_players : Room) os).1 = max_players.
Proof.
  assert (∀ (r : Room) os, id_ (run r os).1 = id_ r ∧
                           max_players_ (run r os).1 = max_players_ r) as H.
  { intros r os'. revert r. induction os' as [|o os' IH]; intros r; [done|].
    rewrite run_cons. destruct (IH (step r o).1) as [-> ->].
    apply step_identity. }
  apply (H (new id max_players)).
Qed.

End Transitions.

Section Membership.
Context {float : Type} `{E : Externals float}.

Abbreviation Player := (Player.t float).
Abbreviation Room := (t float).

(** X3.  [add_player] succeeds exactly when the id is not connected and either
    is held among the disconnected players, or the room is neither full nor
    FINISHED; a call that fails leaves the room as it was. *)
Theorem add_player_outcome (r : Room) (player : Player) :
  ((add_player r player).1 = true ↔
     players_ r !! Player.id player = None ∧
     (is_Some (disconnected_players_ r !! Player.id player) ∨
      (player_count r < max_players_ r ∧ state_ r ≠ FINISHED))) ∧
  ((add_player r player).1 = false → (add_player r player).2 = r).
Proof.
  unfold add_player, has_player, is_full, player_count.
  destruct (players_ r !! Player.id player) as [q|] eqn:Hp; simpl.
  { split; [|done]. split; [done | by intros [? _]]. }
  destruct (disconnected_players_ r !! Player.id player) as [stored|] eqn:Hd;
    simpl.
  { split; [|done]. split; [|done]. intros _. split; [done|]. left. by eexists. }
  destruct (max_players_ r <=? Z.of_nat (size (players_ r))) eqn:Hfull; simpl.
  { apply Z.leb_le in Hfull. split; [|done]. split; [done|].
    intros [_ [[? ?] | [? _]]]; [done | lia]. }
  apply Z.leb_gt in Hfull.
  destruct (state_ r) eqn:Hs; simpl.
  - split; [|done]. split; [|done]. intros _. split; [done|]. right. done.
  - split; [|done]. split; [|done]. intros _. split; [done|]. right. done.
  - split; [|done]. split; [done|]. intros [_ [[? ?] | [_ ?]]]; done.
Qed.

(** The two maps of a reachable room share no id, given that entries sit
    under their own id. *)
Lemma step_disjoint (r : Room) o :
  (∀ sx sy (p : Player), Player.id (spawn sx sy p) = Player.id p) →
  keys_inv r → disjoint_maps r → disjoint_maps (step r o).1.
Proof.
  intros Hsp [Hkp Hkd] Hdj.
  assert (∀ r0 : Room, disjoint_maps r0 → disjoint_maps (start_game r0).1)
    as Hsg.
  { intros r0 H0. destruct (state_ r0) eqn:Hs.
    2,3: by rewrite start_game_not_waiting by (rewrite Hs; done).
    destruct (start_game_waiting r0 Hs) as (players' & -> & Hdom & _).
    intros pid Hpid. simpl in *. apply H0.
    apply elem_of_dom. rewrite <- Hdom. by apply elem_of_dom. }
  destruct o; simpl.
  - unfold add_player, has_player.
    destruct (players_ r !! Player.id player) as [q|] eqn:Hp; [done|].
    destruct (disconnected_players_ r !! Player.id player) as [stored|] eqn:Hd.
    + pose proof (Hkd _ _ Hd) as Hid. intros pid. room_simpl.
      unfold emplace. rewrite Hid, Hp. rewrite lookup_insert.
      rewrite lookup_delete. destruct (decide (Player.id player = pid)); [done|].
      apply Hdj.
    + destruct (is_full r); [done|].
      destruct (RoomState_eqb (state_ r) FINISHED); [done|].
      destruct (RoomState_eqb (state_ r) PLAYING); intros pid; room_simpl;
        unfold emplace, spawn_at; rewrite ?Hsp, Hp, lookup_insert;
        (destruct (decide (Player.id player = pid)) as [<-|]; [done|]);
        apply Hdj.
  - unfold remove_player.
    destruct (players_ r !! player_id) as [p|] eqn:Hp; [|done].
    assert (∀ d : gmap string Player,
              (∀ pid, pid ≠ player_id → d !! pid = disconnected_players_ r !! pid) →
              ∀ pid, is_Some (delete player_id (players_ r) !! pid) →
                     d !! pid = None) as Hgen.
    { intros d Hdd pid [q Hq]. apply lookup_delete_Some in Hq as [Hne Hq].
      rewrite Hdd by done. apply Hdj. by eexists. }
    destruct (RoomState_eqb (state_ r) PLAYING); room_simpl;
      repeat match goal with |- context [if ?b then _ else _] => destruct b end;
      intros pid; simpl; apply Hgen; intros; by rewrite ?lookup_insert_ne.
  - unfold set_player_ready.
    destruct (players_ r !! player_id) as [p|] eqn:Hp; [|done].
    set (r1 := set_players _ r).
    assert (disjoint_maps r1) as H1.
    { subst r1. intros pid. simpl. rewrite lookup_insert.
      destruct (decide (player_id = pid)) as [<-|]; [|apply Hdj].
      intros _. apply Hdj. by eexists. }
    destruct (all_ready r1 && RoomState_eqb (state_ r1) WAITING); [|done].
    specialize (Hsg r1 H1). by destruct (start_game r1).
  - done.
  - by apply Hsg.
  - unfold update.
    destruct (negb (RoomState_eqb (state_ r) PLAYING)); [done|].
    destruct (match empty_since_ r with Some _ => _ | None => _ end).
    { intros pid _. simpl. apply lookup_empty. }
    destruct (map_is_empty (players_ r)); [done|].
    intros pid. simpl. rewrite lookup_fmap. intros [q Hq].
    apply Hdj. destruct (players_ r !! pid); [by eexists | done].
  - unfold queue_input.
    destruct (players_ r !! player_id) as [p|] eqn:Hp; [|done].
    intros pid. simpl. rewrite lookup_insert.
    destruct (decide (player_id = pid)) as [<-|]; [|apply Hdj].
    intros _. apply Hdj. by eexists.
  - done.
Qed.

(** X4.  In every reachable room (the player methods keeping the id) each
    entry of [players_] and of [disconnected_players_] is stored under the
    id its record carries, and no id is in both maps: [get_player] returns
    a record with the id asked for, of a player that is connected and not
    among the disconnected ones. *)
Theorem membership_consistent (r : Room) :
  (∀ sx sy (p : Player), Player.id (spawn sx sy p) = Player.id p) →
  (∀ dt (p : Player), Player.id (process_input dt p) = Player.id p) →
  reachable r →
  keys_inv r ∧ disjoint_maps r ∧
  (∀ pid p, get_player r pid = Some p →
            Player.id p = pid ∧ has_player r pid = true ∧
            disconnected_players_ r !! pid = None).
Proof.
  intros Hsp Hpi Hr.
  assert (keys_inv r ∧ disjoint_maps r) as [Hk Hd].
  { induction Hr as [id n | r o Hr [IHk IHd]].
    - split; [apply keys_inv_new|]. intros pid. simpl. by rewrite lookup_empty.
    - split; [by apply step_keys | by apply step_disjoint]. }
  split; [done|]. split; [done|]. unfold get_player, has_player.
  intros pid p Hp. rewrite Hp. split; [by apply (proj1 Hk)|]. split; [done|].
  apply Hd. by eexists.
Qed.

(** X5.  In a reachable room (the player methods keeping the id) a successful
    [add_player] connects the id and raises the number of connected players
    by exactly one; state and tick are left alone. *)
Theorem add_player_connects (r : Room) (player : Player) :
  (∀ sx sy (p : Player), Player.id (spawn sx sy p) = Player.id p) →
  (∀ dt (p : Player), Player.id (process_input dt p) = Player.id p) →
  reachable r →
  (add_player r player).1 = true →
  has_player (add_player r player).2 (Player.id player) = true ∧
  player_count (add_player r player).2 = player_count r + 1 ∧
  state_ (add_player r player).2 = state_ r ∧
  tick_ (add_player r player).2 = tick_ r.
Proof.
  intros Hsp Hpi Hr. destruct (reachable_keys Hsp Hpi r Hr) as [_ Hkd].
  unfold add_player, has_player, player_count.
  destruct (players_ r !! Player.id player) as [q|] eqn:Hp; [done|].
  destruct (disconnected_players_ r !! Player.id player) as [stored|] eqn:Hd.
  - pose proof (Hkd _ _ Hd) as Hid. intros _. room_simpl. unfold emplace.
    rewrite Hid, Hp, lookup_insert_eq, map_size_insert_None by done.
    repeat split; try done. lia.
  - destruct (is_full r); [done|].
    destruct (RoomState_eqb (state_ r) FINISHED); [done|].
    destruct (RoomState_eqb (state_ r) PLAYING); intros _; room_simpl;
      unfold emplace, spawn_at; rewrite ?Hsp, Hp, lookup_insert_eq,
        map_size_insert_None by done; repeat split; try done; lia.
Qed.

(** X6.  A fresh join (the id neither connected nor held, the room neither full
    nor FINISHED): in WAITING the record is stored as given and the spawn
    cursor stays; in PLAYING the record is spawned at the row the cursor
    selects, modulo 4, and the cursor advances by one. *)
Theorem fresh_join_record (r : Room) (player : Player) :
  (∀ sx sy (p : Player), Player.id (spawn sx sy p) = Player.id p) →
  players_ r !! Player.id player = None →
  disconnected_players_ r !! Player.id player = None →
  player_count r < max_players_ r →
  (state_ r = WAITING →
     (add_player r player).1 = true ∧
     players_ (add_player r player).2 = <[Player.id player := player]> (players_ r) ∧
     next_spawn_ (add_player r player).2 = next_spawn_ r) ∧
  (state_ r = PLAYING →
     (add_player r player).1 = true ∧
     players_ (add_player r player).2 =
       <[Player.id player := spawn_at (Z.rem (next_spawn_ r) 4) player]> (players_ r) ∧
     next_spawn_ (add_player r player).2 = next_spawn_ r + 1).
Proof.
  intros Hsp Hp Hd Hlt. unfold add_player, has_player, is_full, player_count in *.
  rewrite Hp, Hd. apply Z.leb_gt in Hlt. rewrite Hlt.
  split; intros ->; room_simpl; unfold emplace, spawn_at; by rewrite ?Hsp, Hp.
Qed.

(** What [remove_player] does to a connected player. *)
Lemma remove_player_connected (r : Room) pid now p :
  players_ r !! pid = Some p →
  players_ (remove_player r pid now) = delete pid (players_ r) ∧
  player_count (remove_player r pid now) = player_count r - 1 ∧
  tick_ (remove_player r pid now) = tick_ r ∧
  next_spawn_ (remove_player r pid now) = next_spawn_ r ∧
  (state_ r = PLAYING →
     disconnected_players_ (remove_player r pid now)
     = <[pid := p]> (disconnected_players_ r)) ∧
  (state_ r ≠ PLAYING →
     disconnected_players_ (remove_player r pid now)
     = disconnected_players_ r).
Proof.
  intros Hp.
  assert (Z.of_nat (size (delete pid (players_ r)))
          = Z.of_nat (size (players_ r)) - 1) as Hsz.
  { rewrite map_size_delete_Some by done.
    assert (size (players_ r) ≠ 0%nat)
      by (apply map_size_non_empty_iff; by eapply lookup_non_empty).
    lia. }
  unfold remove_player, player_count. rewrite Hp.
  destruct (state_ r) eqn:Hs; room_simpl; rewrite ?Hs; simpl;
    repeat match goal with |- context [if ?b then _ else _] => destruct b end;
    simpl; repeat split; done.
Qed.

(** X7.  [remove_player] of an id that is not connected changes nothing; of a
    connected id it takes exactly that player out of [players_], and while
    PLAYING keeps the record, as it was, among the disconnected players,
    while outside PLAYING the record is dropped. *)
Theorem remove_player_effect (r : Room) pid now :
  (players_ r !! pid = None → remove_player r pid now = r) ∧
  (∀ p, players_ r !! pid = Some p →
     players_ (remove_player r pid now) = delete pid (players_ r) ∧
     player_count (remove_player r pid now) = player_count r - 1 ∧
     tick_ (remove_player r pid now) = tick_ r ∧
     next_spawn_ (remove_player r pid now) = next_spawn_ r ∧
     (state_ r = PLAYING →
        disconnected_players_ (remove_player r pid now)
        = <[pid := p]> (disconnected_players_ r)) ∧
     (state_ r ≠ PLAYING →
        disconnected_players_ (remove_player r pid now)
        = disconnected_players_ r)).
Proof.
  split.
  - intros Hp. unfold remove_player. by rewrite Hp.
  - intros p. apply remove_player_connected.
Qed.

(** X8.  When the last connected player leaves: a PLAYING room stays PLAYING,
    keeps the player for a reconnect and always starts the grace period at
    the time of the call; a WAITING room becomes FINISHED at once and keeps
    nothing.  When somebody else is still connected, state and grace
    timestamp are left alone. *)
Theorem last_player_leaves (r : Room) pid p now :
  players_ r !! pid = Some p →
  (size (players_ r) = 1%nat → state_ r = PLAYING →
     state_ (remove_player r pid now) = PLAYING ∧
     empty_since_ (remove_player r pid now) = Some now ∧
     players_ (remove_player r pid now) = ∅ ∧
     disconnected_players_ (remove_player r pid now) !! pid = Some p) ∧
  (size (players_ r) = 1%nat → state_ r = WAITING →
     state_ (remove_player r pid now) = FINISHED ∧
     empty_since_ (remove_player r pid now) = empty_since_ r ∧
     players_ (remove_player r pid now) = ∅ ∧
     disconnected_players_ (remove_player r pid now) = disconnected_players_ r) ∧
  ((2 ≤ size (players_ r))%nat →
     state_ (remove_player r pid now) = state_ r ∧
     empty_since_ (remove_player r pid now) = empty_since_ r).
Proof.
  intros Hp.
  assert (size (delete pid (players_ r)) = pred (size (players_ r))) as Hsz
    by by rewrite map_size_delete_Some.
  unfold remove_player. rewrite Hp. split; [|split].
  - intros H1 Hs. room_simpl. rewrite Hs. room_simpl.
    assert (map_is_empty (delete pid (players_ r)) = true) as ->.
    { unfold map_is_empty. by rewrite Hsz, H1. }
    assert (map_is_empty (<[pid:=p]> (disconnected_players_ r)) = false) as ->.
    { apply map_is_empty_false, insert_non_empty. }
    rewrite ?Hs. simpl. repeat split; try done.
    + apply map_size_empty_iff. by rewrite Hsz, H1.
    + apply lookup_insert_eq.
  - intros H1 Hs. room_simpl. rewrite Hs. room_simpl.
    assert (map_is_empty (delete pid (players_ r)) = true) as ->.
    { unfold map_is_empty. by rewrite Hsz, H1. }
    rewrite ?Hs. simpl. repeat split; try done.
    apply map_size_empty_iff. by rewrite Hsz, H1.
  - intros H2.
    assert (map_is_empty (delete pid (players_ r)) = false) as Hne.
    { unfold map_is_empty. rewrite Hsz. apply Nat.eqb_neq. lia. }
    destruct (RoomState_eqb (state_ r) PLAYING); room_simpl; by rewrite Hne.
Qed.

(** X9.  Dropping out of a running match and coming back: state, tick and spawn
    cursor are as before, the grace timestamp is cleared, the player is
    connected again with the record held at the disconnect, under the name
    and display name of the rejoin call, and is no longer among the
    disconnected players; with unchanged names [players_] is what it was. *)
Theorem disconnect_reconnect (r : Room) pid (p player : Player) now :
  state_ r = PLAYING →
  players_ r !! pid = Some p →
  Player.id p = pid →
  Player.id player = pid →
  let r1 := remove_player r pid now in
  let r2 := (add_player r1 player).2 in
  (add_player r1 player).1 = true ∧
  players_ r2 = <[pid := Player.set_display_name (Player.display_name player)
                           (Player.set_name (Player.name player) p)]> (players_ r) ∧
  disconnected_players_ r2 = delete pid (disconnected_players_ r) ∧
  state_ r2 = PLAYING ∧ tick_ r2 = tick_ r ∧ next_spawn_ r2 = next_spawn_ r ∧
  empty_since_ r2 = None ∧
  (Player.name player = Player.name p →
   Player.display_name player = Player.display_name p →
   players_ r2 = players_ r).
Proof.
  intros Hs Hp Hid Hpl r1 r2.
  destruct (remove_player_connected r pid now p Hp)
    as (Hpl1 & _ & Ht & Hn & Hd1 & _).
  specialize (Hd1 Hs).
  assert (state_ r1 = PLAYING) as Hs1.
  { destruct (step_state r (RemovePlayer pid now))
      as [H | [(H & _) | [(H & _) | (_ & _ & (? & ? & ? & H & _))]]];
      simpl in H; subst r1; congruence. }
  assert (add_player r1 player =
          (true, insert_player
                   (Player.set_display_name (Player.display_name player)
                      (Player.set_name (Player.name player) p))
                   (set_disconnected (delete pid (disconnected_players_ r1)) r1)))
    as Hadd.
  { unfold add_player, has_player. rewrite Hpl. fold r1 in Hpl1, Hd1.
    by rewrite Hpl1, Hd1, lookup_delete_eq, lookup_insert_eq. }
  subst r2. rewrite Hadd. fold r1 in Hpl1, Hd1, Ht, Hn. room_simpl.
  assert (emplace pid
            (Player.set_display_name (Player.display_name player)
               (Player.set_name (Player.name player) p)) (players_ r1)
          = <[pid := Player.set_display_name (Player.display_name player)
                       (Player.set_name (Player.name player) p)]> (players_ r))
    as Hem.
  { unfold emplace. rewrite Hpl1, lookup_delete_eq. apply insert_delete_eq. }
  rewrite Hid, Hem, Hd1, delete_insert_eq.
  repeat split; try done.
  intros Hn1 Hn2. rewrite Hn1, Hn2. apply insert_id. rewrite Hp.
  by destruct p.
Qed.

(** X10.  [queue_input] for an id that is not connected changes nothing; for a
    connected id it replaces that player's pending actions and last input
    tick and nothing else, so that of two calls in a row only the second
    counts. *)
Theorem queue_input_overwrites (r : Room) pid tick actions :
  (players_ r !! pid = None → queue_input r pid tick actions = r) ∧
  (∀ p, players_ r !! pid = Some p →
     ∃ p', players_ (queue_input r pid tick actions) !! pid = Some p' ∧
           Player.pending_actions p' = actions ∧
           Player.last_input_tick p' = tick ∧
           Player.id p' = Player.id p ∧ Player.name p' = Player.name p ∧
           Player.display_name p' = Player.display_name p ∧
           Player.ready p' = Player.ready p ∧
           Player.x p' = Player.x p ∧ Player.y p' = Player.y p) ∧
  (∀ pid', pid' ≠ pid →
     players_ (queue_input r pid tick actions) !! pid' = players_ r !! pid') ∧
  (∀ tick0 actions0,
     queue_input (queue_input r pid tick0 actions0) pid tick actions
     = queue_input r pid tick actions).
Proof.
  unfold queue_input. split; [|split; [|split]].
  - by intros ->.
  - intros p ->. eexists. simpl. rewrite lookup_insert_eq. done.
  - intros pid' Hne. destruct (players_ r !! pid); [|done].
    simpl. by rewrite lookup_insert_ne.
  - intros tick0 actions0. destruct (players_ r !! pid) as [p|] eqn:Hp.
    + simpl. rewrite lookup_insert_eq. unfold set_players. simpl.
      by rewrite insert_insert_eq.
    + by rewrite Hp.
Qed.

(** X11.  [all_ready] holds exactly when at least two players are connected and
    every connected player is ready. *)
Theorem all_ready_iff_quorum (r : Room) :
  all_ready r = true ↔
  (2 ≤ size (players_ r))%nat ∧
  ∀ pid p, players_ r !! pid = Some p → Player.ready p = true.
Proof. apply all_ready_quorum. Qed.

(** X12.  Marking a player as not ready never starts the game: state, tick and
    spawn cursor stay, the one broadcast is the ready-state event, and the
    room is not all-ready afterwards. *)
Theorem unready_never_starts (r : Room) pid :
  state_ (set_player_ready r pid false).1 = state_ r ∧
  tick_ (set_player_ready r pid false).1 = tick_ r ∧
  next_spawn_ (set_player_ready r pid false).1 = next_spawn_ r ∧
  count_game_start (set_player_ready r pid false).2 = 0%nat ∧
  (is_Some (players_ r !! pid) →
     all_ready (set_player_ready r pid false).1 = false ∧
     ∃ e, (set_player_ready r pid false).2 = [e] ∧
          payload e = ready_state_msg pid false).
Proof.
  unfold set_player_ready. destruct (players_ r !! pid) as [p|] eqn:Hp.
  - rewrite all_ready_after_unready. simpl. repeat split; try done.
    + apply all_ready_after_unready.
    + by eexists.
  - repeat split; try done; by intros [? ?].
Qed.

End Membership.

Section Ticking.
Context {float : Type} `{E : Externals float}.

Abbreviation Player := (Player.t float).
Abbreviation Room := (t float).

(** X13.  In a reachable PLAYING room with a connected player, [update] always
    ticks, whatever the clock says: the state stays PLAYING, the tick grows
    by one, every connected player's input is processed, and one game-state
    event carrying the new tick goes to the connected players. *)
Theorem update_with_player_ticks (r : Room) dt now :
  reachable r →
  state_ r = PLAYING →
  players_ r ≠ ∅ →
  state_ (update r dt now).1 = PLAYING ∧
  tick_ (update r dt now).1 = tick_ r + 1 ∧
  players_ (update r dt now).1 = process_input dt <$> players_ r ∧
  disconnected_players_ (update r dt now).1 = disconnected_players_ r ∧
  ∃ e, (update r dt now).2 = [e] ∧
       msg_type (payload e) = Some "game_state"%string ∧
       field "tick" (payload e) = Some (JInt (tick_ r + 1)) ∧
       sent_to e = if broadcast_fn_ r
                   then keys (process_input dt <$> players_ r) else [].
Proof.
  intros Hr Hs Hne. apply reachable_inv in Hr as [Hw Hf He Hg Hd].
  assert (empty_since_ r = None) as Hes.
  { destruct (empty_since_ r) eqn:Hes; [|done].
    destruct He as [? _]; [by eexists | done]. }
  unfold update. rewrite Hs, Hes. simpl.
  apply map_is_empty_false in Hne. rewrite Hne. simpl.
  repeat split; try done. by eexists.
Qed.

(** X14.  The two detectors of the end of a room agree.  In a reachable room
    [should_cleanup] is true only when nobody is connected, always true once
    FINISHED and never true in WAITING; when it is true of a PLAYING room,
    an [update] at that time finishes the room, after which it stays true;
    when it is false, the [update] leaves the room PLAYING. *)
Theorem cleanup_detectors_agree (r : Room) now :
  reachable r →
  (should_cleanup r now = true → is_empty r = true) ∧
  (state_ r = FINISHED → should_cleanup r now = true) ∧
  (state_ r = WAITING → should_cleanup r now = false) ∧
  (state_ r = PLAYING → should_cleanup r now = true →
     ∀ dt, state_ (update r dt now).1 = FINISHED ∧
           ∀ now', should_cleanup (update r dt now).1 now' = true) ∧
  (state_ r = PLAYING → should_cleanup r now = false →
     ∀ dt, state_ (update r dt now).1 = PLAYING).
Proof.
  intros Hr. apply reachable_inv in Hr as [Hw Hf He Hg Hd].
  unfold should_cleanup, is_empty, update.
  split; [|split; [|split; [|split]]].
  - destruct (RoomState_eqb (state_ r) FINISHED && map_is_empty (players_ r))
      eqn:Hc.
    + apply andb_true_iff in Hc as [_ Hc]. done.
    + destruct (empty_since_ r) eqn:Hes; [|done]. intros _.
      apply map_is_empty_true. destruct He as [? _]; [by eexists | done].
  - intros Hs. destruct (Hf Hs) as [_ Hp]. rewrite Hs. simpl.
    apply map_is_empty_true in Hp. by rewrite Hp.
  - intros Hs. destruct (Hw Hs) as (_ & _ & Hes). by rewrite Hs, Hes.
  - intros Hs. rewrite Hs. simpl.
    destruct (empty_since_ r) as [since|] eqn:Hes; [|done].
    intros ->. intros dt. simpl. split; [done|]. intros now'.
    destruct He as [Hp _]; [by eexists|].
    apply map_is_empty_true in Hp. by rewrite Hp.
  - intros Hs. rewrite Hs. simpl.
    destruct (empty_since_ r) as [since|] eqn:Hes.
    + intros ->. intros dt. by destruct (map_is_empty (players_ r)).
    + intros _ dt. by destruct (map_is_empty (players_ r)).
Qed.

(** X15.  The spawn cursor of a reachable room is never negative, so the row it
    selects always lies within the four rows of the spawn table. *)
Theorem spawn_index_in_table (r : Room) :
  reachable r →
  0 ≤ next_spawn_ r ∧ 0 ≤ Z.rem (next_spawn_ r) 4 < 4.
Proof.
  intros Hr.
  assert (0 ≤ next_spawn_ r) as Hn.
  { induction Hr as [id n | r o Hr IH]; [simpl; lia|].
    assert (0 ≤ next_spawn_ (start_game r).1) as Hsg.
    { destruct (state_ r) eqn:Hs.
      2,3: by rewrite start_game_not_waiting by (rewrite Hs; done).
      destruct (start_game_waiting r Hs) as (players' & -> & _). simpl. lia. }
    destruct o; simpl; try done.
    - unfold add_player.
      repeat match goal with
             | |- context [if ?b then _ else _] => destruct b
             | |- context [match ?o with Some _ => _ | None => _ end] => destruct o
             end; simpl; lia.
    - unfold remove_player. destruct (players_ r !! player_id); [|done].
      room_simpl.
      repeat match goal with |- context [if ?b then _ else _] => destruct b end;
        done.
    - unfold set_player_ready. destruct (players_ r !! player_id); [|done].
      set (r1 := set_players _ r).
      destruct (all_ready r1 && RoomState_eqb (state_ r1) WAITING) eqn:Hc;
        [|done].
      apply andb_true_iff in Hc as [_ Hs]. apply RoomState_eqb_eq in Hs.
      destruct (start_game_waiting r1 Hs) as (players' & -> & _). simpl. lia.
    - unfold update.
      repeat match goal with
             | |- context [if ?b then _ else _] => destruct b
             | |- context [match ?o with Some _ => _ | None => _ end] => destruct o
             end; done.
    - unfold queue_input. by destruct (players_ r !! player_id). }
  split; [done|]. split.
  - by apply Z.rem_nonneg.
  - apply Z.rem_bound_pos; lia.
Qed.

(** X16.  A reachable FINISHED room is dead: no command broadcasts anything or
    changes anything but the delivery target, and no sequence of commands
    brings back a player or leaves FINISHED. *)
Theorem finished_room_is_final (r : Room) :
  reachable r →
  state_ r = FINISHED →
  (∀ o, (step r o).2 = [] ∧
        (step r o).1 = match o with
                       | SetBroadcastFn fn => set_broadcast_fn r fn
                       | _ => r
                       end) ∧
  (∀ os, (run r os).2 = [] ∧ state_ (run r os).1 = FINISHED ∧
         players_ (run r os).1 = ∅ ∧ disconnected_players_ (run r os).1 = ∅).
Proof.
  assert (∀ r0 : Room, reachable r0 → state_ r0 = FINISHED →
            ∀ o, (step r0 o).2 = [] ∧
                 (step r0 o).1 = match o with
                                 | SetBroadcastFn fn => set_broadcast_fn r0 fn
                                 | _ => r0
                                 end) as Hstep.
  { intros r0 Hr0 Hs. apply reachable_inv in Hr0 as [Hw Hf He Hg Hd].
    destruct (Hf Hs) as [Hdisc Hpl]. intros o. destruct o; simpl.
    - split; [done|]. unfold add_player, has_player.
      rewrite Hpl, Hdisc, !lookup_empty, Hs. simpl. by destruct (is_full r0).
    - unfold remove_player. by rewrite Hpl, lookup_empty.
    - unfold set_player_ready. by rewrite Hpl, lookup_empty.
    - unfold handle_chat, get_player. by rewrite Hpl, lookup_empty.
    - rewrite start_game_not_waiting by congruence. done.
    - unfold update. by rewrite Hs.
    - unfold queue_input. by rewrite Hpl, lookup_empty.
    - done. }
  intros Hr Hs. split; [by apply Hstep|].
  intros os. revert r Hr Hs. induction os as [|o os IH]; intros r Hr Hs.
  - simpl. apply reachable_inv in Hr as [Hw Hf He Hg Hd].
    destruct (Hf Hs) as [? ?]. done.
  - destruct (Hstep r Hr Hs o) as [Ht Hr1].
    pose proof (reachable_step r o Hr) as Hreach.
    assert (state_ (step r o).1 = FINISHED) as Hs1.
    { rewrite Hr1. by destruct o. }
    specialize (IH _ Hreach Hs1).
    change (run r (o :: os))
      with (let '(r1, tr1) := step r o in
            let '(r2, tr2) := run r1 os in (r2, tr1 ++ tr2)).
    destruct (step r o) as [r1 tr1]. simpl in *. subst tr1.
    destruct (run r1 os) as [r2 tr2]. simpl in *. done.
Qed.

(** What one command can announce. *)
Lemma step_game_start (r : Room) o :
  (count_game_start (step r o).2 ≤ 1)%nat ∧
  (count_game_start (step r o).2 = 1%nat → state_ (step r o).1 ≠ WAITING).
Proof.
  destruct (state_ r) eqn:Hs.
  2,3: destruct (step_after_start r o) as [H1 H2];
       [rewrite Hs; done | rewrite H2; split; [lia | done]].
  assert (∀ tr : list (bcast float),
            count_game_start tr = 0%nat →
            ∀ P : Prop, (count_game_start tr ≤ 1)%nat ∧
                        (count_game_start tr = 1%nat → P)) as Hzero.
  { intros tr -> P. split; [lia | done]. }
  destruct o; simpl.
  - by apply Hzero.
  - by apply Hzero.
  - unfold set_player_ready.
    destruct (players_ r !! player_id); [|by apply Hzero].
    set (r1 := set_players _ r).
    destruct (all_ready r1 && RoomState_eqb (state_ r1) WAITING) eqn:Hc.
    + apply andb_true_iff in Hc as [_ Hs1]. apply RoomState_eqb_eq in Hs1.
      destruct (start_game_waiting r1 Hs1) as (players' & -> & _). simpl.
      split; [|done]. unfold count_game_start. simpl. lia.
    + by apply Hzero.
  - apply Hzero. unfold handle_chat, get_player.
    by destruct (players_ r !! sender_id).
  - destruct (start_game_waiting r Hs) as (players' & -> & _). simpl.
    split; [|done]. unfold count_game_start. simpl. lia.
  - apply Hzero. unfold update. by rewrite Hs.
  - by apply Hzero.
  - by apply Hzero.
Qed.

Lemma run_cons_trace (r : Room) o os :
  (run r (o :: os)).2 = (step r o).2 ++ (run (step r o).1 os).2.
Proof.
  change (run r (o :: os))
    with (let '(r1, tr1) := step r o in
          let '(r2, tr2) := run r1 os in (r2, tr1 ++ tr2)).
  destruct (step r o) as [r1 tr1]. simpl. by destruct (run r1 os).
Qed.

Lemma count_game_start_app (tr1 tr2 : list (bcast float)) :
  count_game_start (tr1 ++ tr2)
  = (count_game_start tr1 + count_game_start tr2)%nat.
Proof.
  unfold count_game_start. by rewrite List.filter_app, length_app.
Qed.

(** X17.  Over the whole life of a room the game-start event is broadcast at
    most once, whatever the commands. *)
Theorem game_starts_at_most_once (r : Room) os :
  (count_game_start (run r os).2 ≤ 1)%nat.
Proof.
  revert r. induction os as [|o os IH]; intros r.
  - unfold count_game_start. simpl. lia.
  - rewrite run_cons_trace, count_game_start_app.
    destruct (step_game_start r o) as [Hle Hone].
    specialize (IH (step r o).1).
    destruct (decide (count_game_start (step r o).2 = 1%nat)) as [H1|H1].
    + destruct (run_after_start (step r o).1 os (Hone H1)) as [_ H0]. lia.
    + lia.
Qed.

(** X18.  Outside WAITING [set_player_ready] still writes the flag of a
    connected player and broadcasts the ready-state event, and that is all:
    the game is not started again even when everybody is ready. *)
Theorem ready_outside_lobby (r : Room) pid ready p :
  state_ r ≠ WAITING →
  players_ r !! pid = Some p →
  (set_player_ready r pid ready).1
  = set_players (<[pid := Player.set_ready ready p]> (players_ r)) r ∧
  ∃ e, (set_player_ready r pid ready).2 = [e] ∧
       payload e = ready_state_msg pid ready ∧
       ∀ q, q ∈ sent_to e ↔
            broadcast_fn_ r = true ∧ is_Some (players_ r !! q).
Proof.
  intros Hs Hp. unfold set_player_ready. rewrite Hp. simpl.
  apply RoomState_eqb_neq in Hs. rewrite Hs, andb_false_r. simpl.
  split; [done|]. eexists. split; [done|]. split; [done|]. simpl.
  intros q. destruct (broadcast_fn_ r).
  - rewrite elem_of_keys, dom_insert_L, elem_of_union, elem_of_singleton.
    rewrite elem_of_dom. split; [|intros [_ ?]; by right].
    intros [-> | ?]; (split; [done|]); [by eexists | done].
  - rewrite elem_of_nil. split; [done | by intros [? _]].
Qed.

(** X19.  With a clock that counts a positive number of periods per second and
    does not run backwards, the threshold [update] and [should_cleanup]
    test is reached exactly when [GRACE_SECONDS] whole seconds have passed
    since the room emptied. *)
Theorem grace_threshold_exact (now since : Z) :
  0 < clock_periods_per_second →
  since ≤ now →
  (GRACE_SECONDS ≤ elapsed_seconds now since ↔
   GRACE_SECONDS * clock_periods_per_second ≤ now - since).
Proof.
  intros Hpos Hle. unfold elapsed_seconds.
  rewrite Z.quot_div_nonneg by lia. split.
  - intros H. apply Z.le_trans with ((now - since) / clock_periods_per_second
                                     * clock_periods_per_second).
    + by apply Z.mul_le_mono_nonneg_r; [lia|].
    + rewrite Z.mul_comm. apply Z.mul_div_le. lia.
  - intros H. apply Z.div_le_lower_bound; lia.
Qed.

End Ticking.

Section FanOut.
Context {float : Type} `{E : Externals float}.

Abbreviation Player := (Player.t float).
Abbreviation Room := (t float).

Lemma elem_of_deliveries (tr : list (bcast float)) pid msg :
  (pid, msg) ∈ deliveries tr ↔
  ∃ e, e ∈ tr ∧ payload e = msg ∧ pid ∈ sent_to e.
Proof.
  unfold deliveries. rewrite list_elem_of_In, in_flat_map. split.
  - intros (e & He & Hin). apply in_map_iff in Hin as (pid' & [= <- <-] & Hin).
    exists e. by rewrite !list_elem_of_In.
  - intros (e & He & <- & Hin). exists e. rewrite <- list_elem_of_In.
    split; [done|]. apply in_map_iff. exists pid. by rewrite <- list_elem_of_In.
Qed.

Lemma deliveries_none (tr : list (bcast float)) :
  (∀ e, e ∈ tr → sent_to e = []) → deliveries tr = [].
Proof.
  induction tr as [|e tr IH]; intros H; [done|]. simpl.
  rewrite (H e) by (apply elem_of_cons; by left). simpl.
  apply IH. intros e' He'. apply H. apply elem_of_cons. by right.
Qed.

(** Whom the events of one command go to. *)
Lemma step_recipients (r : Room) o e :
  e ∈ (step r o).2 →
  (broadcast_fn_ r = false → sent_to e = []) ∧
  (∀ pid, pid ∈ sent_to e → pid ∈ dom (players_ (step r o).1)).
Proof.
  assert (∀ (m m' : gmap string Player) (msg : json float),
            dom m = dom m' →
            let e0 := mk_bcast msg (if broadcast_fn_ r then keys m else []) in
            (broadcast_fn_ r = false → sent_to e0 = []) ∧
            (∀ pid, pid ∈ sent_to e0 → pid ∈ dom m')) as Hb.
  { intros m m' msg Hdom. simpl.
    destruct (broadcast_fn_ r); split; try done.
    - intros pid. by rewrite elem_of_keys, Hdom.
    - intros pid. by rewrite elem_of_nil. }
  destruct o; simpl; try (by rewrite elem_of_nil).
  - unfold set_player_ready.
    destruct (players_ r !! player_id) as [p|]; [|by rewrite elem_of_nil].
    set (r1 := set_players _ r).
    destruct (all_ready r1 && RoomState_eqb (state_ r1) WAITING) eqn:Hc.
    + apply andb_true_iff in Hc as [_ Hs1]. apply RoomState_eqb_eq in Hs1.
      destruct (start_game_waiting r1 Hs1) as (players' & -> & Hdom & _).
      unfold broadcast. simpl. rewrite !elem_of_cons, elem_of_nil.
      intros [-> | [-> | []]]; apply Hb; by rewrite ?Hdom.
    + unfold broadcast. simpl. rewrite !elem_of_cons, elem_of_nil.
      intros [-> | []]; by apply Hb.
  - unfold handle_chat, get_player.
    destruct (players_ r !! sender_id); [|by rewrite elem_of_nil].
    unfold broadcast. simpl. rewrite !elem_of_cons, elem_of_nil. intros [-> | []]; by apply Hb.
  - destruct (state_ r) eqn:Hs.
    2,3: rewrite start_game_not_waiting by (rewrite Hs; done);
         by rewrite elem_of_nil.
    destruct (start_game_waiting r Hs) as (players' & -> & Hdom & _).
    unfold broadcast. simpl. rewrite !elem_of_cons, elem_of_nil. intros [-> | []]; by apply Hb.
  - unfold update.
    destruct (negb (RoomState_eqb (state_ r) PLAYING));
      [by rewrite elem_of_nil|].
    destruct (match empty_since_ r with Some _ => _ | None => _ end);
      [by rewrite elem_of_nil|].
    destruct (map_is_empty (players_ r)); [by rewrite elem_of_nil|].
    unfold broadcast. simpl. rewrite !elem_of_cons, elem_of_nil. intros [-> | []]; by apply Hb.
Qed.

(** X20.  Whatever the command, its broadcasts reach only players that are
    connected once the command has run, and without a delivery target
    nothing is delivered at all. *)
Theorem deliveries_reach_connected (r : Room) o :
  (broadcast_fn_ r = false → deliveries (step r o).2 = []) ∧
  (∀ pid msg, (pid, msg) ∈ deliveries (step r o).2 →
              has_player (step r o).1 pid = true).
Proof.
  split.
  - intros Hfn. apply deliveries_none. intros e He.
    by apply (step_recipients r o e He).
  - intros pid msg Hin. apply elem_of_deliveries in Hin as (e & He & _ & Hpid).
    apply (step_recipients r o e He) in Hpid.
    apply elem_of_dom in Hpid as [p Hp]. unfold has_player. by rewrite Hp.
Qed.

Lemma count_filter_ne (l : list string) pid x :
  length (List.filter (λ k, String.eqb k pid)
            (List.filter (λ k, negb (String.eqb k x)) l))
  = if String.eqb pid x then 0%nat
    else length (List.filter (λ k, String.eqb k pid) l).
Proof.
  induction l as [|k l IH]; simpl; [by destruct (String.eqb pid x)|].
  destruct (String.eqb k x) eqn:Hkx; simpl.
  - rewrite IH. destruct (String.eqb pid x) eqn:Hpx; [done|].
    destruct (String.eqb k pid) eqn:Hkp; [|done].
    apply String.eqb_eq in Hkx, Hkp. subst.
    by rewrite String.eqb_refl in Hpx.
  - destruct (String.eqb k pid) eqn:Hkp; simpl; rewrite IH.
    + apply String.eqb_eq in Hkp as ->. by rewrite Hkx.
    + done.
Qed.

Lemma count_nodup (l : list string) pid :
  NoDup l →
  length (List.filter (λ k, String.eqb k pid) l)
  = if decide (pid ∈ l) then 1%nat else 0%nat.
Proof.
  induction 1 as [|k l Hk Hnd IH].
  - simpl. destruct (decide (pid ∈ [])) as [Hin|]; [|done].
    by apply elem_of_nil in Hin.
  - cbn [List.filter]. destruct (String.eqb k pid) eqn:Hkp.
    + apply String.eqb_eq in Hkp as ->. cbn [length]. rewrite IH.
      destruct (decide (pid ∈ l)); [done|].
      destruct (decide (pid ∈ pid :: l)) as [|Hn]; [done|].
      destruct Hn. apply elem_of_cons. by left.
    + apply String.eqb_neq in Hkp. rewrite IH.
      destruct (decide (pid ∈ l)) as [Hin|Hin];
        destruct (decide (pid ∈ k :: l)) as [Hin'|Hin']; try done.
      * destruct Hin'. apply elem_of_cons. by right.
      * apply elem_of_cons in Hin' as [-> | ?]; done.
Qed.

Lemma count_keys (m : gmap string Player) pid :
  length (List.filter (λ k, String.eqb k pid) (keys m))
  = match m !! pid with Some _ => 1%nat | None => 0%nat end.
Proof.
  rewrite count_nodup by apply NoDup_fst_entries.
  destruct (decide (pid ∈ keys m)) as [Hin|Hin];
    rewrite elem_of_keys, elem_of_dom in Hin.
  - by destruct Hin as [p ->].
  - destruct (m !! pid); [|done]. destruct Hin. by eexists.
Qed.

Lemma times_delivered_single (msg : json float) (l : list string) pid :
  times_delivered pid [mk_bcast msg l]
  = length (List.filter (λ k, String.eqb k pid) l).
Proof.
  unfold times_delivered, deliveries. simpl. rewrite app_nil_r.
  induction l as [|k l IH]; simpl; [done|].
  destruct (String.eqb k pid); simpl; by rewrite IH.
Qed.

(** X21.  The three fan-out shapes, with a delivery target set: [broadcast] hands
    the payload exactly once to every connected player and to nobody else;
    [broadcast_except] does the same but skips the excluded id; [send_to]
    hands it once to the id given, connected or not.  Without a target none
    of them delivers anything. *)
Theorem fan_out_shapes (r : Room) (x : string) (msg : json float) :
  (broadcast_fn_ r = false →
     deliveries (broadcast r msg) = [] ∧
     deliveries (broadcast_except r x msg) = [] ∧
     deliveries (send_to r x msg) = []) ∧
  (broadcast_fn_ r = true →
     ∀ pid,
       times_delivered pid (broadcast r msg)
       = (if has_player r pid then 1 else 0)%nat ∧
       times_delivered pid (broadcast_except r x msg)
       = (if has_player r pid && negb (String.eqb pid x) then 1 else 0)%nat ∧
       times_delivered pid (send_to r x msg)
       = (if String.eqb pid x then 1 else 0)%nat) ∧
  (∀ pid m, (pid, m) ∈ deliveries (broadcast r msg)
                        ++ deliveries (broadcast_except r x msg)
                        ++ deliveries (send_to r x msg) →
            m = msg).
Proof.
  unfold broadcast, broadcast_except, send_to. split; [|split].
  - by intros ->.
  - intros -> pid. rewrite !times_delivered_single, count_filter_ne, count_keys.
    unfold has_player. simpl. rewrite (String.eqb_sym x pid).
    destruct (players_ r !! pid), (String.eqb pid x); done.
  - intros pid m. rewrite !elem_of_app, !elem_of_deliveries.
    intros [H | [H | H]]; destruct H as (e & He & <- & _);
      by apply list_elem_of_singleton in He as ->.
Qed.





End FanOut.

(** ** Runs on explicit rooms *)

Section Runs.
Import Demo.

Lemma reachable_from_lobby os : reachable (run lobby os).1.
Proof. apply reachable_run, reachable_new. Qed.

(** Against C1 as stated: a new room has no player at all, so the quorum is
    unmet, and [start_game] moves it out of WAITING all the same. *)
Lemma start_game_without_quorum :
  all_ready lobby = false ∧ state_ lobby = WAITING ∧
  state_ (start_game lobby).1 ≠ state_ lobby.
Proof. vm_compute. repeat split; discriminate. Qed.

Lemma start_game_guard_witness :
  state_ (start_game lobby).1 = PLAYING ∧
  tick_ (start_game lobby).1 = 0 ∧
  next_spawn_ (start_game lobby).1 = player_count lobby ∧
  length (start_game lobby).2 = 1%nat ∧
  count_game_start (start_game lobby).2 = 1%nat.
Proof.
  destruct (start_game_guard lobby) as (H & _ & _). apply H. reflexivity.
Defined.

(** Against C2 as stated: once the grace period has expired the timestamp
    is still set, in a room that is FINISHED. *)
Lemma empty_since_set_when_finished :
  reachable after_expiry ∧
  ¬ (is_Some (empty_since_ after_expiry) ↔
     players_ after_expiry = ∅ ∧ state_ after_expiry = PLAYING ∧
     disconnected_players_ after_expiry ≠ ∅).
Proof.
  split; [apply reachable_from_lobby|]. intros [H _].
  destruct H as (_ & Hs & _); [vm_compute; by eexists|].
  vm_compute in Hs. discriminate.
Qed.

Lemma empty_since_characterised_witness :
  is_Some (empty_since_ in_grace) ∧
  players_ in_grace = ∅ ∧
  ((state_ in_grace = PLAYING ∧ disconnected_players_ in_grace ≠ ∅) ∨
   (state_ in_grace = FINISHED ∧ disconnected_players_ in_grace = ∅)).
Proof.
  destruct (empty_since_characterised in_grace (reachable_from_lobby _))
    as (H1 & H2 & _).
  assert (is_Some (empty_since_ in_grace)) as Hes.
  { apply H1. split; [by vm_compute|]. split; [by vm_compute|].
    apply (lookup_non_empty _ "a" alice_stored). by vm_compute. }
  split; [exact Hes|]. exact (H2 Hes).
Defined.

(** Against C3 as stated: Alice drops, Carol takes the free slot, Alice
    reconnects, and a room for two holds three connected players. *)
Lemma reconnect_exceeds_capacity :
  reachable over_capacity ∧
  max_players_ over_capacity = 2 ∧ player_count over_capacity = 3 ∧
  ¬ player_count over_capacity ≤ max_players_ over_capacity.
Proof.
  split; [apply reachable_from_lobby|]. vm_compute. repeat split; auto.
Qed.

Lemma capacity_bound_witness :
  player_count alice_back ≤ max_players_ alice_back ∧
  add_player bob_pending carol = (false, bob_pending).
Proof.
  destruct capacity_bound as (_ & H1 & H2 & _).
  split.
  - apply H1. unfold alice_back, started. cbn [app]. rewrite !run_cons.
    unfold run.
    apply (reachable_within_step _ (AddPlayer alice_again)).
    + apply (reachable_within_step _ (RemovePlayer "a" 0)); [|intros [[] _]].
      apply (reachable_within_step _ (SetPlayerReady "b" true));
        [|intros [[] _]].
      apply (reachable_within_step _ (SetPlayerReady "a" true));
        [|intros [[] _]].
      apply (reachable_within_step _ (AddPlayer bob)).
      * apply (reachable_within_step lobby (AddPlayer alice)).
        -- apply reachable_within_new. lia.
        -- intros [[_ [p Hp]] _]. vm_compute in Hp. discriminate.
      * intros [[_ [p Hp]] _]. vm_compute in Hp. discriminate.
    + intros [_ Hfull]. vm_compute in Hfull. by apply Hfull.
  - apply H2; [by vm_compute|]. vm_compute. discriminate.
Defined.

Lemma auto_start_quorum_witness :
  state_ (set_player_ready bob_pending "b" true).1 = PLAYING ∧
  count_game_start (set_player_ready bob_pending "b" true).2 = 1%nat.
Proof.
  destruct auto_start_quorum as (_ & _ & H).
  destruct (H bob_pending "a" "b" (Player.set_ready true alice) bob)
    as (H1 & _ & _ & H2 & _).
  - reflexivity.
  - discriminate.
  - by vm_compute.
  - reflexivity.
  - split; [exact H1 | exact H2].
Defined.

Lemma reconnect_restores_witness :
  ∃ r' p',
    add_player alice_away alice_again = (true, r') ∧
    players_ r' !! "a" = Some p' ∧
    Player.x p' = 100 ∧ Player.y p' = 500 ∧ Player.ready p' = true ∧
    Player.name p' = "alice2" ∧ Player.display_name p' = "Alice II" ∧
    disconnected_players_ r' !! "a" = None.
Proof.
  destruct (reconnect_restores alice_away alice_again alice_stored)
    as (r' & p' & H1 & H2 & _ & H3 & H4 & H5 & _ & _ & H6 & H7 & H8 & _).
  - intros. reflexivity.
  - intros. reflexivity.
  - apply reachable_from_lobby.
  - by vm_compute.
  - by vm_compute.
  - exists r', p'. repeat split; assumption.
Defined.

Lemma grace_expiry_witness :
  state_ (update in_grace 0 30000).1 = FINISHED ∧
  disconnected_players_ (update in_grace 0 30000).1 = ∅ ∧
  tick_ (update in_grace 0 30000).1 = tick_ in_grace ∧
  players_ (update in_grace 0 30000).1 = players_ in_grace ∧
  (update in_grace 0 30000).2 = [].
Proof.
  apply (grace_expiry in_grace 0 30000 0).
  - by vm_compute.
  - by vm_compute.
  - by vm_compute.
  - vm_compute. discriminate.
Defined.

Lemma tick_monotone_witness :
  tick_ playing ≤ tick_ (step playing (Update 0 5)).1.
Proof.
  destruct (tick_monotone playing (reachable_from_lobby _)) as [H _].
  apply (H (Update 0 5)).
Defined.

(** Against C8 as stated: Alice's chat event carries her [name], which is
    not her [display_name]. *)
Lemma chat_carries_name :
  players_ alice_alone !! "a" = Some alice ∧
  ∃ e, handle_chat alice_alone "a" "hi" = [e] ∧
       field "player_name" (payload e) = Some (JString "alice") ∧
       field "player_name" (payload e)
         ≠ Some (JString (Player.display_name alice)).
Proof.
  split; [by vm_compute|]. eexists. split; [by vm_compute|].
  split; [reflexivity | discriminate].
Qed.

Lemma handle_chat_event_witness :
  ∃ e, handle_chat alice_alone "a" "hi" = [e] ∧
       field "player_id" (payload e) = Some (JString "a") ∧
       field "player_name" (payload e) = Some (JString "alice") ∧
       field "message" (payload e) = Some (JString "hi").
Proof.
  destruct (handle_chat_event alice_alone "a" "hi") as [_ H].
  destruct (H alice) as (e & H1 & _ & H2 & H3 & H4 & _); [by vm_compute|].
  exists e. repeat split; assumption.
Defined.

Lemma empty_since_no_players_witness : players_ in_grace = ∅.
Proof.
  destruct (empty_since_no_players in_grace (reachable_from_lobby _))
    as (H & _ & _).
  apply H. vm_compute. by eexists.
Defined.

Lemma finished_room_closed_witness :
  disconnected_players_ after_expiry = ∅ ∧
  add_player after_expiry alice = (false, after_expiry).
Proof.
  destruct (finished_room_closed after_expiry (reachable_from_lobby _))
    as (H1 & H2 & _); [by vm_compute|].
  split; [exact H1 | apply H2].
Defined.

End Runs.

Section MoreRuns.
Import Demo.

Lemma state_moves_forward_witness :
  ∃ pid now,
    RemovePlayer (float := Z) "a" 0 = RemovePlayer pid now ∧
    is_Some (players_ alice_alone !! pid) ∧
    players_ (step alice_alone (RemovePlayer "a" 0)).1 = ∅.
Proof.
  destruct (state_moves_forward alice_alone) as (_ & _ & _ & H & _).
  apply H; by vm_compute.
Defined.

Lemma add_player_outcome_witness :
  (add_player bob_pending carol).2 = bob_pending.
Proof.
  destruct (add_player_outcome bob_pending carol) as [_ H].
  apply H. by vm_compute.
Defined.

Lemma membership_consistent_witness :
  Player.id bob_started = "b"%string ∧ has_player playing "b" = true ∧
  disconnected_players_ playing !! "b" = None.
Proof.
  destruct (membership_consistent playing) as (_ & _ & H).
  - intros. reflexivity.
  - intros. reflexivity.
  - apply reachable_from_lobby.
  - apply H. by vm_compute.
Defined.

Lemma add_player_connects_witness :
  has_player (add_player alice_away alice_again).2 "a" = true ∧
  player_count (add_player alice_away alice_again).2 = player_count alice_away + 1 ∧
  state_ (add_player alice_away alice_again).2 = state_ alice_away ∧
  tick_ (add_player alice_away alice_again).2 = tick_ alice_away.
Proof.
  apply (add_player_connects alice_away alice_again).
  - intros. reflexivity.
  - intros. reflexivity.
  - apply reachable_from_lobby.
  - by vm_compute.
Defined.

Lemma fresh_join_record_witness :
  (add_player alice_away carol).1 = true ∧
  players_ (add_player alice_away carol).2
  = <["c" := spawn_at (Z.rem (next_spawn_ alice_away) 4) carol]> (players_ alice_away) ∧
  next_spawn_ (add_player alice_away carol).2 = next_spawn_ alice_away + 1.
Proof.
  destruct (fresh_join_record alice_away carol) as [_ H].
  - intros. reflexivity.
  - by vm_compute.
  - by vm_compute.
  - by vm_compute.
  - apply H. by vm_compute.
Defined.

Lemma remove_player_effect_witness :
  players_ (remove_player playing "a" 5) = delete "a" (players_ playing) ∧
  disconnected_players_ (remove_player playing "a" 5)
  = <["a" := alice_stored]> (disconnected_players_ playing).
Proof.
  destruct (remove_player_effect playing "a" 5) as [_ H].
  destruct (H alice_stored) as (H1 & _ & _ & _ & H2 & _); [by vm_compute|].
  split; [exact H1|]. apply H2. by vm_compute.
Defined.

Lemma last_player_leaves_witness :
  state_ (remove_player alice_away "b" 7) = PLAYING ∧
  empty_since_ (remove_player alice_away "b" 7) = Some 7 ∧
  players_ (remove_player alice_away "b" 7) = ∅ ∧
  disconnected_players_ (remove_player alice_away "b" 7) !! "b" = Some bob_started.
Proof.
  destruct (last_player_leaves alice_away "b" bob_started 7) as (H & _ & _).
  - by vm_compute.
  - apply H; by vm_compute.
Defined.

Lemma disconnect_reconnect_witness :
  (add_player (remove_player playing "a" 5) alice_again).1 = true ∧
  disconnected_players_ (add_player (remove_player playing "a" 5) alice_again).2
  = delete "a" (disconnected_players_ playing) ∧
  empty_since_ (add_player (remove_player playing "a" 5) alice_again).2 = None.
Proof.
  destruct (disconnect_reconnect playing "a" alice_stored alice_again 5)
    as (H1 & _ & H2 & _ & _ & _ & H3 & _).
  - by vm_compute.
  - by vm_compute.
  - reflexivity.
  - reflexivity.
  - split; [exact H1|]. split; [exact H2 | exact H3].
Defined.

Lemma queue_input_overwrites_witness :
  ∃ p', players_ (queue_input playing "a" 3 ["jump"%string]) !! "a" = Some p' ∧
        Player.pending_actions p' = ["jump"%string] ∧
        Player.last_input_tick p' = 3 ∧
        Player.x p' = 100 ∧ Player.ready p' = true.
Proof.
  destruct (queue_input_overwrites playing "a" 3 ["jump"%string]) as (_ & H & _).
  destruct (H alice_stored) as (p' & H1 & H2 & H3 & _ & _ & _ & H4 & H5 & _);
    [by vm_compute|].
  exists p'. repeat split; assumption.
Defined.

Lemma update_with_player_ticks_witness :
  state_ (update playing 0 99999).1 = PLAYING ∧
  tick_ (update playing 0 99999).1 = tick_ playing + 1.
Proof.
  destruct (update_with_player_ticks playing 0 99999) as (H1 & H2 & _).
  - apply reachable_from_lobby.
  - by vm_compute.
  - apply (lookup_non_empty _ "a" alice_stored). by vm_compute.
  - split; [exact H1 | exact H2].
Defined.

Lemma cleanup_detectors_agree_witness :
  state_ (update in_grace 0 30000).1 = FINISHED ∧
  should_cleanup (update in_grace 0 30000).1 0 = true.
Proof.
  destruct (cleanup_detectors_agree in_grace 30000 (reachable_from_lobby _))
    as (_ & _ & _ & H & _).
  destruct (H ltac:(by vm_compute) ltac:(by vm_compute) 0) as [H1 H2].
  split; [exact H1 | apply H2].
Defined.

Lemma spawn_index_in_table_witness :
  0 ≤ next_spawn_ over_capacity ∧ 0 ≤ Z.rem (next_spawn_ over_capacity) 4 < 4.
Proof.
  apply (spawn_index_in_table over_capacity). apply reachable_from_lobby.
Defined.

Lemma finished_room_is_final_witness :
  (run after_expiry [AddPlayer carol; StartGame; Update 0 40000]).2 = [] ∧
  state_ (run after_expiry [AddPlayer carol; StartGame; Update 0 40000]).1
  = FINISHED.
Proof.
  destruct (finished_room_is_final after_expiry (reachable_from_lobby _))
    as [_ H]; [by vm_compute|].
  destruct (H [AddPlayer carol; StartGame; Update 0 40000]) as (H1 & H2 & _).
  split; [exact H1 | exact H2].
Defined.

Lemma deliveries_reach_connected_witness :
  deliveries (step playing (Update 0 5)).2 = [].
Proof.
  destruct (deliveries_reach_connected playing (Update 0 5)) as [H _].
  apply H. by vm_compute.
Defined.

Lemma fan_out_shapes_witness :
  times_delivered "a" (broadcast (set_broadcast_fn playing true) (JInt 1)) = 1%nat ∧
  times_delivered "a"
    (broadcast_except (set_broadcast_fn playing true) "a" (JInt 1)) = 0%nat ∧
  times_delivered "z" (send_to (set_broadcast_fn playing true) "z" (JInt 1))
  = 1%nat.
Proof.
  destruct (fan_out_shapes (set_broadcast_fn playing true) "a" (JInt 1))
    as (_ & H & _).
  destruct (H eq_refl "a") as (H1 & H2 & _).
  destruct (fan_out_shapes (set_broadcast_fn playing true) "z" (JInt 1))
    as (_ & H' & _).
  destruct (H' eq_refl "z") as (_ & _ & H3).
  split; [exact H1|]. split; [exact H2 | exact H3].
Defined.


Lemma ready_outside_lobby_witness :
  (set_player_ready playing "a" true).1
  = set_players (<["a" := Player.set_ready true alice_stored]> (players_ playing))
      playing.
Proof.
  destruct (ready_outside_lobby playing "a" true alice_stored) as [H _].
  - by vm_compute.
  - by vm_compute.
  - exact H.
Defined.

Lemma grace_threshold_exact_witness :
  GRACE_SECONDS ≤ elapsed_seconds 30000 0 ↔
  GRACE_SECONDS * clock_periods_per_second ≤ 30000 - 0.
Proof.
  apply (grace_threshold_exact 30000 0); by vm_compute.
Defined.

End MoreRuns.

End Room.
